(** * Recitation-feedback client (app.jsx): session engine, mistake queue,
      training uploads.

    A shallow embedding of the handlers of the [App] component.  React
    state is a record, every [setX] call is a record update, values
    read through a closure (the render's [feedbackMode], [currentSura],
    [currentAya]) are explicit arguments, and what the browser supplies
    ([crypto.randomUUID], [Date.now], [atob], the outcome of [fetch]) is
    an explicit input of the handler that consumes it. *)

From Stdlib Require Import ZArith NArith Ascii String DecimalString.
From stdpp Require Import base decidable list gmap.

Local Open Scope N_scope.

(** ** JavaScript strings: sequences of UTF-16 code units *)

Module JsString.

Abbreviation jsstring := (list N).

(** An ASCII literal as code units. *)
Definition lit (s : string) : jsstring :=
  N_of_ascii <$> list_ascii_of_string s.

(** The double-quote character. *)
Definition dquote : jsstring := [34].

(** [String(n)] for an integral number of magnitude below 10^21, which
    JavaScript prints with all its digits (from 10^21 on it prints an
    exponent form); verse numbers and timestamps are in that range. *)
Definition of_number (n : Z) : jsstring :=
  lit (NilZero.string_of_int (Z.to_int n)).

(** The class [\s] of a regular expression: WhiteSpace and
    LineTerminator code points. *)
Definition is_ws (c : N) : bool :=
  ((9 <=? c) && (c <=? 13))
  || (c =? 32) || (c =? 160) || (c =? 5760)
  || ((8192 <=? c) && (c <=? 8202))
  || (c =? 8232) || (c =? 8233) || (c =? 8239) || (c =? 8287)
  || (c =? 12288) || (c =? 65279).

(** [s.split(/\s+/)].  The scan keeps the token under construction
    ([cur], reversed) and whether it is inside a separator run
    ([inws]); a run of whitespace closes the open token once, and the
    end of the string closes the last one, so that a leading or
    trailing run yields an empty token and the empty string yields
    one empty token. *)
Fixpoint split_aux (inws : bool) (cur : jsstring) (s : jsstring)
  : list jsstring :=
  match s with
  | [] => [reverse cur]
  | c :: s' =>
      if is_ws c then
        if inws then split_aux true cur s'
        else reverse cur :: split_aux true [] s'
      else split_aux false (c :: cur) s'
  end.

Definition split_ws (s : jsstring) : list jsstring := split_aux false [] s.

(** [word => word.length > 0] *)
Definition nonempty (w : jsstring) : bool :=
  match w with [] => false | _ => true end.

(** [s.split(/\s+/).filter(word => word.length > 0)] *)
Definition words (s : jsstring) : list jsstring :=
  List.filter nonempty (split_ws s).

(** [s.startsWith(p)] *)
Fixpoint startsWith (s p : jsstring) : bool :=
  match p, s with
  | [], _ => true
  | _ :: _, [] => false
  | a :: p', b :: s' => (a =? b) && startsWith s' p'
  end.

End JsString.

Import JsString.

(** ** Data model *)

Inductive FeedbackMode := Highlight | Beep | Spoken.

Inductive Verification := Pending | Correct | Incorrect.

(** A record of [mistakeQueue]. *)
Record Mistake := {
  id : jsstring;
  sura : jsstring;
  aya : jsstring;
  transcription_segment : jsstring;
  reference_segment : jsstring;
  mistake_type : jsstring;
  timestamp : Z;
  verified : Verification;
  synced : bool;
}.

(** [{ ...m, verified: status, synced: false }] *)
Definition with_verification (status : Verification) (m : Mistake) : Mistake :=
  {| id := id m; sura := sura m; aya := aya m;
     transcription_segment := transcription_segment m;
     reference_segment := reference_segment m;
     mistake_type := mistake_type m; timestamp := timestamp m;
     verified := status; synced := false |}.

(** [{ ...m, synced: true }] *)
Definition with_synced (m : Mistake) : Mistake :=
  {| id := id m; sura := sura m; aya := aya m;
     transcription_segment := transcription_segment m;
     reference_segment := reference_segment m;
     mistake_type := mistake_type m; timestamp := timestamp m;
     verified := verified m; synced := true |}.

(** An entry of the [diff] array of a [diff_update] message. *)
Inductive DiffType :=
  Equal | Insertion | Deletion | ReplacementRef | ReplacementTrans.

Record DiffEntry := {
  d_type : DiffType;
  d_index : Z;
  d_word : jsstring;
}.

(** The parsed payload of a socket message. *)
Record MistakeMsg := {
  m_mistake_type : jsstring;
  m_reference_word : jsstring;
  m_transcribed_word : jsstring;
  m_transcribed_segment : jsstring;
  m_reference_segment : jsstring;
  m_correction_audio_base64 : option jsstring;
}.

Inductive Message :=
| VerseIdentified (sura_name ayah_text : jsstring) (ayah_number : Z)
| DiffUpdate (diff : list DiffEntry)
| MistakeEvent (m : MistakeMsg)
| OtherMessage.

(** A [File] of a file input. *)
Record File := {
  f_name : jsstring;
  f_type : jsstring;
  f_size : Z;
}.

(** The component state the modelled handlers read and write. *)
Record AppState := {
  isListening : bool;
  currentSura : jsstring;
  currentAya : jsstring;
  feedbackMode : FeedbackMode;
  mistakeQueue : list Mistake;
  currentVerseWords : list jsstring;
  highlightedWords : list Z;
  statusMessage : jsstring;
  isSpokenCorrectionPlaying : bool;
  recordedAudioFile : option File;
}.

(** The state of the first render: the arguments of the [useState]
    calls. *)
Definition initial : AppState :=
  {| isListening := false;
     currentSura := [];
     currentAya := [];
     feedbackMode := Highlight;
     mistakeQueue := [];
     currentVerseWords := [];
     highlightedWords := [];
     statusMessage := lit "Ready to start listening.";
     isSpokenCorrectionPlaying := false;
     recordedAudioFile := None |}.

Definition setIsListening (b : bool) (s : AppState) : AppState :=
  {| isListening := b; currentSura := currentSura s;
     currentAya := currentAya s; feedbackMode := feedbackMode s;
     mistakeQueue := mistakeQueue s;
     currentVerseWords := currentVerseWords s;
     highlightedWords := highlightedWords s;
     statusMessage := statusMessage s;
     isSpokenCorrectionPlaying := isSpokenCorrectionPlaying s;
     recordedAudioFile := recordedAudioFile s |}.

Definition setCurrentSura (v : jsstring) (s : AppState) : AppState :=
  {| isListening := isListening s; currentSura := v;
     currentAya := currentAya s; feedbackMode := feedbackMode s;
     mistakeQueue := mistakeQueue s;
     currentVerseWords := currentVerseWords s;
     highlightedWords := highlightedWords s;
     statusMessage := statusMessage s;
     isSpokenCorrectionPlaying := isSpokenCorrectionPlaying s;
     recordedAudioFile := recordedAudioFile s |}.

Definition setCurrentAya (v : jsstring) (s : AppState) : AppState :=
  {| isListening := isListening s; currentSura := currentSura s;
     currentAya := v; feedbackMode := feedbackMode s;
     mistakeQueue := mistakeQueue s;
     currentVerseWords := currentVerseWords s;
     highlightedWords := highlightedWords s;
     statusMessage := statusMessage s;
     isSpokenCorrectionPlaying := isSpokenCorrectionPlaying s;
     recordedAudioFile := recordedAudioFile s |}.

(** [setMistakeQueue(prev => f(prev))] *)
Definition setMistakeQueue (f : list Mistake → list Mistake) (s : AppState)
  : AppState :=
  {| isListening := isListening s; currentSura := currentSura s;
     currentAya := currentAya s; feedbackMode := feedbackMode s;
     mistakeQueue := f (mistakeQueue s);
     currentVerseWords := currentVerseWords s;
     highlightedWords := highlightedWords s;
     statusMessage := statusMessage s;
     isSpokenCorrectionPlaying := isSpokenCorrectionPlaying s;
     recordedAudioFile := recordedAudioFile s |}.

Definition setCurrentVerseWords (v : list jsstring) (s : AppState) : AppState :=
  {| isListening := isListening s; currentSura := currentSura s;
     currentAya := currentAya s; feedbackMode := feedbackMode s;
     mistakeQueue := mistakeQueue s;
     currentVerseWords := v;
     highlightedWords := highlightedWords s;
     statusMessage := statusMessage s;
     isSpokenCorrectionPlaying := isSpokenCorrectionPlaying s;
     recordedAudioFile := recordedAudioFile s |}.

Definition setHighlightedWords (v : list Z) (s : AppState) : AppState :=
  {| isListening := isListening s; currentSura := currentSura s;
     currentAya := currentAya s; feedbackMode := feedbackMode s;
     mistakeQueue := mistakeQueue s;
     currentVerseWords := currentVerseWords s;
     highlightedWords := v;
     statusMessage := statusMessage s;
     isSpokenCorrectionPlaying := isSpokenCorrectionPlaying s;
     recordedAudioFile := recordedAudioFile s |}.

Definition setStatusMessage (v : jsstring) (s : AppState) : AppState :=
  {| isListening := isListening s; currentSura := currentSura s;
     currentAya := currentAya s; feedbackMode := feedbackMode s;
     mistakeQueue := mistakeQueue s;
     currentVerseWords := currentVerseWords s;
     highlightedWords := highlightedWords s;
     statusMessage := v;
     isSpokenCorrectionPlaying := isSpokenCorrectionPlaying s;
     recordedAudioFile := recordedAudioFile s |}.

Definition setIsSpokenCorrectionPlaying (b : bool) (s : AppState) : AppState :=
  {| isListening := isListening s; currentSura := currentSura s;
     currentAya := currentAya s; feedbackMode := feedbackMode s;
     mistakeQueue := mistakeQueue s;
     currentVerseWords := currentVerseWords s;
     highlightedWords := highlightedWords s;
     statusMessage := statusMessage s;
     isSpokenCorrectionPlaying := b;
     recordedAudioFile := recordedAudioFile s |}.

Definition setRecordedAudioFile (v : option File) (s : AppState) : AppState :=
  {| isListening := isListening s; currentSura := currentSura s;
     currentAya := currentAya s; feedbackMode := feedbackMode s;
     mistakeQueue := mistakeQueue s;
     currentVerseWords := currentVerseWords s;
     highlightedWords := highlightedWords s;
     statusMessage := statusMessage s;
     isSpokenCorrectionPlaying := isSpokenCorrectionPlaying s;
     recordedAudioFile := v |}.

(** What the browser hands to one run of a handler that asks for an
    identifier and the time: the results of [crypto.randomUUID()] and
    [Date.now()]. *)
Record Env := {
  randomUUID : jsstring;
  now : Z;
}.

(** How an awaited [fetch] settles: a response with its HTTP status and
    whether its body parses as JSON, or a rejection (network error). *)
Inductive FetchOutcome :=
| Responded (status : Z) (body_is_json : bool)
| Rejected.

(** [response.ok] *)
Definition ok (status : Z) : bool :=
  ((200 <=? status) && (status <=? 299))%Z.

(** ** Session protocol: [ws.current.onmessage] *)

Module Session.

(** What the handler's closure holds: the values of the render that
    installed it (the effect lists all three as dependencies). *)
Record Closure := {
  cl_feedbackMode : FeedbackMode;
  cl_currentSura : jsstring;
  cl_currentAya : jsstring;
}.

(** The feedback a [mistake_event] triggers besides the state update.
    [FeedbackThrows] is [atob] raising on a payload that is not
    base64: the handler's promise rejects after the state updates. *)
Inductive Feedback :=
| NoFeedback
| PlayBeep
| PlaySpokenCorrection (audioBytes : list N)
| FeedbackThrows.

(** [diff.filter(d => d.type === 'deletion' || d.type === 'replacement_ref')] *)
Definition is_highlight (d : DiffEntry) : bool :=
  match d_type d with
  | Deletion | ReplacementRef => true
  | _ => false
  end.

Definition newHighlightedWords (diff : list DiffEntry) : list Z :=
  d_index <$> List.filter is_highlight diff.

(** A JavaScript string is truthy when it is not empty. *)
Definition truthy (o : option jsstring) : option jsstring :=
  match o with
  | Some (c :: s) => Some (c :: s)
  | _ => None
  end.

Section Handler.

(** [atob]: base64 text to a binary string, [None] when it throws. *)
Variable atob : jsstring → option jsstring.

(** [Uint8Array.from(atob(b64), c => c.charCodeAt(0))] *)
Definition audioBytes_of (b64 : jsstring) : option (list N) :=
  match atob b64 with
  | Some bin => Some ((λ c, c mod 256) <$> bin)
  | None => None
  end.

Definition newMistake (cl : Closure) (env : Env) (m : MistakeMsg) : Mistake :=
  {| id := randomUUID env;
     sura := cl_currentSura cl;
     aya := cl_currentAya cl;
     transcription_segment := m_transcribed_segment m;
     reference_segment := m_reference_segment m;
     mistake_type := m_mistake_type m;
     timestamp := now env;
     verified := Pending;
     synced := false |}.

Definition feedback_for (cl : Closure) (m : MistakeMsg) : Feedback :=
  match cl_feedbackMode cl with
  | Highlight => NoFeedback
  | Beep => PlayBeep
  | Spoken =>
      match truthy (m_correction_audio_base64 m) with
      | Some b64 =>
          match audioBytes_of b64 with
          | Some bytes => PlaySpokenCorrection bytes
          | None => FeedbackThrows
          end
      | None => NoFeedback
      end
  end.

Definition onmessage (cl : Closure) (env : Env) (msg : Message)
           (s : AppState) : AppState * Feedback :=
  match msg with
  | VerseIdentified sura_name ayah_text ayah_number =>
      (setHighlightedWords []
         (setStatusMessage
            (lit "Reciting: " ++ sura_name ++ lit " - "
               ++ of_number ayah_number)
            (setCurrentVerseWords (words ayah_text)
               (setCurrentAya ayah_text
                  (setCurrentSura sura_name s)))),
       NoFeedback)
  | DiffUpdate diff =>
      (setHighlightedWords (newHighlightedWords diff) s, NoFeedback)
  | MistakeEvent m =>
      (setMistakeQueue (λ prev, newMistake cl env m :: prev)
         (setStatusMessage
            (lit "Mistake detected! " ++ m_mistake_type m
               ++ lit " at word: " ++ dquote ++ m_reference_word m
               ++ dquote ++ lit " (You said: " ++ dquote
               ++ m_transcribed_word m ++ dquote ++ lit ")")
            s),
       feedback_for cl m)
  | OtherMessage => (s, NoFeedback)
  end.

(** Messages are handled in delivery order; each run of the handler
    gets its own closure and environment. *)
Fixpoint run (evs : list (Closure * Env * Message)) (s : AppState)
  : AppState :=
  match evs with
  | [] => s
  | (cl, env, msg) :: evs' => run evs' (fst (onmessage cl env msg s))
  end.

End Handler.

(** Runs of messages of one type. *)
Definition diff_updates (evs : list (Closure * Env * list DiffEntry))
  : list (Closure * Env * Message) :=
  (λ e, (e.1.1, e.1.2, DiffUpdate e.2)) <$> evs.



End Session.

(** ** Mistake queue: verification and background sync *)

Module Queue.

Definition verification_text (v : Verification) : jsstring :=
  match v with
  | Pending => lit "pending"
  | Correct => lit "correct"
  | Incorrect => lit "incorrect"
  end.

(** [handleMistakeVerification(id, status)] *)
Definition handleMistakeVerification (id0 : jsstring) (status : Verification)
           (s : AppState) : AppState :=
  setStatusMessage
    (lit "Mistake marked as " ++ verification_text status ++ lit ".")
    (setMistakeQueue
       (λ prev, (λ m, if decide (id m = id0)
                      then with_verification status m else m) <$> prev)
       s).

(** A queue record as it travels: [({ synced, ...rest }) => rest]. *)
Record MistakeWire := {
  w_id : jsstring;
  w_sura : jsstring;
  w_aya : jsstring;
  w_transcription_segment : jsstring;
  w_reference_segment : jsstring;
  w_mistake_type : jsstring;
  w_timestamp : Z;
  w_verified : Verification;
}.

Definition strip_synced (m : Mistake) : MistakeWire :=
  {| w_id := id m; w_sura := sura m; w_aya := aya m;
     w_transcription_segment := transcription_segment m;
     w_reference_segment := reference_segment m;
     w_mistake_type := mistake_type m;
     w_timestamp := timestamp m;
     w_verified := verified m |}.

(** The body of the POST to the sync endpoint. *)
Record SyncPayload := { mistakes : list MistakeWire }.

(** [mistakeQueue.filter(m => !m.synced)] *)
Definition unsynced_of (captured : list Mistake) : list Mistake :=
  List.filter (λ m, negb (synced m)) captured.

(** [syncMistakes] up to its [await]: [None] is the early return
    without a request, [Some] the request that is issued. *)
Definition syncMistakes_request (captured : list Mistake)
  : option SyncPayload :=
  match unsynced_of captured with
  | [] => None
  | unsynced => Some {| mistakes := strip_synced <$> unsynced |}
  end.

(** [new Set(unsynced.map(m => m.id))] *)
Definition syncedIds (unsynced : list Mistake) : gset jsstring :=
  list_to_set (id <$> unsynced).

(** [prev.map(m => syncedIds.has(m.id) ? { ...m, synced: true } : m)] *)
Definition mark_synced (ids : gset jsstring) (prev : list Mistake)
  : list Mistake :=
  (λ m, if decide (id m ∈ ids) then with_synced m else m) <$> prev.

(** [syncMistakes] after its [await], on the state of that moment:
    [captured] is the queue the callback closed over. *)
Definition syncMistakes_settle (captured : list Mistake)
           (res : FetchOutcome) (s : AppState) : AppState :=
  match res with
  | Responded status _ =>
      if ok status then
        setStatusMessage (lit "Synced mistakes to server.")
          (setMistakeQueue (mark_synced (syncedIds (unsynced_of captured))) s)
      else s
  | Rejected => s
  end.

(** One whole sync attempt started in state [s]; [during] is what
    other handlers do to the state while the request is in flight.
    The result is the request issued, if any, and the final state. *)
Definition syncMistakes (res : FetchOutcome) (during : AppState → AppState)
           (s : AppState) : option SyncPayload * AppState :=
  match syncMistakes_request (mistakeQueue s) with
  | None => (None, s)
  | Some payload =>
      (Some payload, syncMistakes_settle (mistakeQueue s) res (during s))
  end.

(** The fields a verification or a sync leaves alone. *)
Definition same_payload (m m' : Mistake) : Prop :=
  id m' = id m ∧ sura m' = sura m ∧ aya m' = aya m
  ∧ transcription_segment m' = transcription_segment m
  ∧ reference_segment m' = reference_segment m
  ∧ mistake_type m' = mistake_type m
  ∧ timestamp m' = timestamp m.

(** A request that does not come back with a success status. *)
Definition failed (res : FetchOutcome) : Prop :=
  match res with
  | Rejected => True
  | Responded status _ => ok status = false
  end.

End Queue.

(** ** Training uploads *)

Module Training.

(** An entry of the upload log kept under [qra_training_uploads]. *)
Record TrainingUploadRecord := {
  r_id : jsstring;
  r_fileName : jsstring;
  r_text : option jsstring;
  r_originalMistakeId : option jsstring;
  r_type : jsstring;
  r_timestamp : Z;
  r_fileSize : Z;
  r_fileType : jsstring;
}.

(** What [localStorage.getItem(LS_KEYS.trainingUploads)] holds: no
    item, an item that parses to an array of records, or an item on
    which [JSON.parse] or [unshift] throws. *)
Inductive StoredUploads :=
| Absent
| Stored (log : list TrainingUploadRecord)
| Unparsable.

Definition invalid_file_message : jsstring :=
  lit "Please select a valid audio file (.mp3, .wav, etc.).".

(** [handleAudioFileUpload(event)], [files0] being
    [event.target.files[0]]. *)
Definition handleAudioFileUpload (files0 : option File) (s : AppState)
  : AppState :=
  match files0 with
  | Some file =>
      if startsWith (f_type file) (lit "audio/") then
        setStatusMessage
          (lit "Audio file '" ++ f_name file ++ lit "' selected for training.")
          (setRecordedAudioFile (Some file) s)
      else
        setStatusMessage invalid_file_message (setRecordedAudioFile None s)
  | None =>
      setStatusMessage invalid_file_message (setRecordedAudioFile None s)
  end.

Definition upload_failed_message : jsstring :=
  lit "Failed to upload initial training audio.".

Definition initial_record (env : Env) (file : File) : TrainingUploadRecord :=
  {| r_id := randomUUID env;
     r_fileName := f_name file;
     r_text := None;
     r_originalMistakeId := None;
     r_type := lit "initial_recitation_upload";
     r_timestamp := now env;
     r_fileSize := f_size file;
     r_fileType := f_type file |}.

(** [uploadInitialTrainingAudio()].  The result is the file posted,
    if a request was made, the component state and the upload log. *)
Definition uploadInitialTrainingAudio (env : Env) (res : FetchOutcome)
           (s : AppState) (store : StoredUploads)
  : option File * AppState * StoredUploads :=
  match recordedAudioFile s with
  | None =>
      (None,
       setStatusMessage
         (lit "No audio file selected to upload for training.") s,
       store)
  | Some file =>
      let uploading :=
        setStatusMessage
          (lit "Uploading '" ++ f_name file ++ lit "' for training...") s in
      let caught (s' : AppState) :=
        (Some file, setStatusMessage upload_failed_message s', store) in
      match res with
      | Rejected => caught uploading
      | Responded status body_is_json =>
          if negb (ok status) then caught uploading
          else if negb body_is_json then caught uploading
          else
            let uploaded :=
              setStatusMessage
                (lit "File '" ++ f_name file
                   ++ lit "' uploaded successfully for initial training.")
                uploading in
            match store with
            | Unparsable => caught uploaded
            | Absent =>
                (Some file, setRecordedAudioFile None uploaded,
                 Stored [initial_record env file])
            | Stored existing =>
                (Some file, setRecordedAudioFile None uploaded,
                 Stored (initial_record env file :: existing))
            end
      end
  end.

(** The outcome of an upload request that is not a success. *)
Definition upload_rejected (res : FetchOutcome) : Prop :=
  match res with
  | Rejected => True
  | Responded status _ => ok status = false
  end.

End Training.

(** ** Correction playback: [playSpokenCorrection] *)

Module Playback.

(** The playback side of the component.  Buffer sources are numbered
    in creation order; [sounding] lists those that were started and
    have neither been stopped nor ended; [awaiting] counts the calls
    of [playSpokenCorrection] suspended at [await decodeAudioData]. *)
Record Player := {
  app : AppState;
  spokenCorrectionSource : option nat;
  sounding : list nat;
  created : nat;
  awaiting : nat;
}.

(** Before any correction was played. *)
Definition idle_player : Player :=
  {| app := initial;
     spokenCorrectionSource := None;
     sounding := [];
     created := 0;
     awaiting := 0 |}.

(** [source.stop(); source.disconnect()] *)
Definition silence (src : nat) (l : list nat) : list nat :=
  List.filter (λ x, negb (Nat.eqb x src)) l.

(** The call up to its [await]: the source the ref points to, if any,
    is stopped, disconnected and dropped.  ([audioContext.current] is
    set on mount and the argument is a typed array, so the outer
    guard holds.) *)
Definition playSpokenCorrection_enter (p : Player) : Player :=
  {| app :=
       match spokenCorrectionSource p with
       | Some _ => setIsSpokenCorrectionPlaying false (app p)
       | None => app p
       end;
     spokenCorrectionSource := None;
     sounding :=
       match spokenCorrectionSource p with
       | Some prev => silence prev (sounding p)
       | None => sounding p
       end;
     created := created p;
     awaiting := S (awaiting p) |}.

(** The call after its [await]: with the decoded buffer a new source
    is created, started and stored in the ref; a rejected decode goes
    to the [catch]. *)
Definition playSpokenCorrection_resume (decoded : bool) (p : Player)
  : Player :=
  if decoded then
    {| app := setIsSpokenCorrectionPlaying true (app p);
       spokenCorrectionSource := Some (created p);
       sounding := created p :: sounding p;
       created := S (created p);
       awaiting := pred (awaiting p) |}
  else
    {| app := setIsSpokenCorrectionPlaying false
                (setStatusMessage (lit "Error playing correction audio.")
                   (app p));
       spokenCorrectionSource := spokenCorrectionSource p;
       sounding := sounding p;
       created := created p;
       awaiting := pred (awaiting p) |}.

(** [source.onended], when source [src] plays to its end. *)
Definition onended (src : nat) (p : Player) : Player :=
  {| app := setIsSpokenCorrectionPlaying false (app p);
     spokenCorrectionSource := None;
     sounding := silence src (sounding p);
     created := created p;
     awaiting := awaiting p |}.

(** What the event loop can run next. *)
Inductive Event :=
| Call                       (* playSpokenCorrection is called *)
| Decoded (decoded : bool)   (* a pending decodeAudioData settles *)
| Ended (src : nat).         (* the ended event of source src *)

(** One turn of the event loop; [None] when the event cannot occur in
    that state (no decode pending, no such source).  A source gets its
    ended event when it has played to its end and also after [stop()]
    was called on it, and its [onended] handler runs in both cases; so
    the event is enabled for every source that was created.  (Each
    source gets it once; the model does not keep track of that.) *)
Definition step (e : Event) (p : Player) : option Player :=
  match e with
  | Call => Some (playSpokenCorrection_enter p)
  | Decoded decoded =>
      match awaiting p with
      | O => None
      | S _ => Some (playSpokenCorrection_resume decoded p)
      end
  | Ended src =>
      if (src <? created p)%nat then Some (onended src p)
      else None
  end.

Fixpoint exec (es : list Event) (p : Player) : option Player :=
  match es with
  | [] => Some p
  | e :: es' =>
      match step e p with
      | Some p' => exec es' p'
      | None => None
      end
  end.

(** A call that runs with nothing else scheduled between its two
    halves. *)
Definition playSpokenCorrection_alone (decoded : bool) (p : Player)
  : Player :=
  playSpokenCorrection_resume decoded (playSpokenCorrection_enter p).

Definition at_most_one_source (p : Player) : Prop :=
  (length (sounding p) ≤ 1)%nat.

(** The only sounding source, if any, is the one the ref holds. *)
Definition tracked (p : Player) : Prop :=
  sounding p = option_list (spokenCorrectionSource p).

End Playback.

(** ** Capture session: [startListening], [stopListening] and the
       socket effect *)

Module Capture.

Import Playback.

Inductive ReadyState := CONNECTING | OPEN | CLOSING | CLOSED.

Inductive RecorderState := Inactive | Recording.

(** The refs of the component together with the browser objects they
    point to.  Sockets are numbered in creation order and [sockets]
    holds their [readyState]; [intervals] and [frames] are the
    [setInterval] and [requestAnimationFrame] registrations that are
    still live, [timeouts] the pending [setTimeout]s; handles come
    from one counter and are never zero. *)
Record Runtime := {
  player : Player;
  ws : option nat;
  sockets : list ReadyState;
  mediaRecorder : option RecorderState;
  audioStream : option bool;         (* Some live: are the tracks live *)
  animationFrameId : option nat;
  silenceTimeoutId : option nat;
  intervals : gset nat;
  frames : gset nat;
  timeouts : gset nat;
  next_handle : nat;
}.

(** After the first render and its effects: nothing acquired. *)
Definition idle_runtime : Runtime :=
  {| player := idle_player;
     ws := None; sockets := [];
     mediaRecorder := None; audioStream := None;
     animationFrameId := None; silenceTimeoutId := None;
     intervals := ∅; frames := ∅; timeouts := ∅;
     next_handle := 0 |}.

Definition listening (r : Runtime) : bool := isListening (app (player r)).

(** [socket.close()] *)
Definition close_socket (i : nat) (l : list ReadyState) : list ReadyState :=
  alter (λ st, match st with CLOSED => CLOSED | _ => CLOSING end) i l.

Definition with_app (f : AppState → AppState) (p : Player) : Player :=
  {| app := f (app p);
     spokenCorrectionSource := spokenCorrectionSource p;
     sounding := sounding p;
     created := created p;
     awaiting := awaiting p |}.

(** [startListening()].  [granted] tells whether [getUserMedia]
    resolves.  The second component is what the function returns: the
    interval handle its cleanup closure would clear, when it gets
    that far. *)
Definition startListening (granted : bool) (r : Runtime)
  : Runtime * option nat :=
  if listening r then (r, None)
  else if negb granted then
    ({| player :=
          with_app
            (λ s, setIsListening false
                    (setStatusMessage
                       (lit "Microphone access denied or error. Please allow microphone permissions.")
                       s))
            (player r);
        ws := ws r; sockets := sockets r;
        mediaRecorder := mediaRecorder r;
        audioStream := audioStream r;
        animationFrameId := animationFrameId r;
        silenceTimeoutId := silenceTimeoutId r;
        intervals := intervals r; frames := frames r;
        timeouts := timeouts r; next_handle := next_handle r |},
     None)
  else
    let frame := S (next_handle r) in
    let intervalId := S (S (next_handle r)) in
    ({| player :=
          with_app
            (λ s, setIsListening true
                    (setStatusMessage (lit "Listening...") s))
            (player r);
        ws := ws r; sockets := sockets r;
        mediaRecorder := Some Recording;
        audioStream := Some true;
        animationFrameId := Some frame;
        silenceTimeoutId := silenceTimeoutId r;
        intervals := {[intervalId]} ∪ intervals r;
        frames := {[frame]} ∪ frames r;
        timeouts := timeouts r;
        next_handle := intervalId |},
     Some intervalId).

(** [stopListening()] *)
Definition stopListening (r : Runtime) : Runtime :=
  if negb (listening r) then r
  else
    {| player :=
         {| app :=
              setIsSpokenCorrectionPlaying false
                (setHighlightedWords []
                   (setCurrentVerseWords []
                      (setCurrentAya []
                         (setCurrentSura []
                            (setStatusMessage (lit "Stopped listening.")
                               (setIsListening false (app (player r))))))));
            spokenCorrectionSource := None;
            sounding :=
              match spokenCorrectionSource (player r) with
              | Some src => silence src (sounding (player r))
              | None => sounding (player r)
              end;
            created := created (player r);
            awaiting := awaiting (player r) |};
       ws := ws r;
       sockets :=
         match ws r with
         | Some i => close_socket i (sockets r)
         | None => sockets r
         end;
       mediaRecorder :=
         match mediaRecorder r with
         | Some Recording => Some Inactive
         | other => other
         end;
       audioStream :=
         match audioStream r with
         | Some _ => Some false
         | None => None
         end;
       animationFrameId := animationFrameId r;
       silenceTimeoutId := silenceTimeoutId r;
       intervals := intervals r;
       frames :=
         match animationFrameId r with
         | Some h => frames r ∖ {[h]}
         | None => frames r
         end;
       timeouts :=
         match silenceTimeoutId r with
         | Some h => timeouts r ∖ {[h]}
         | None => timeouts r
         end;
       next_handle := next_handle r |}.

(** The button: [onClick={isListening ? stopListening : startListening}].
    Whatever the handler returns is dropped. *)
Definition onClick (granted : bool) (r : Runtime) : Runtime :=
  if listening r then stopListening r else fst (startListening granted r).

(** The socket effect after a render in which [isListening] changed:
    the cleanup of the previous run closes the socket of the ref, then
    the body either closes and clears the ref (not listening) or
    creates a new socket. *)
Definition socket_effect (r : Runtime) : Runtime :=
  let cleaned :=
    match ws r with
    | Some i => close_socket i (sockets r)
    | None => sockets r
    end in
  {| player := player r;
     ws := if listening r then Some (length cleaned) else None;
     sockets := if listening r then cleaned ++ [CONNECTING] else cleaned;
     mediaRecorder := mediaRecorder r;
     audioStream := audioStream r;
     animationFrameId := animationFrameId r;
     silenceTimeoutId := silenceTimeoutId r;
     intervals := intervals r; frames := frames r;
     timeouts := timeouts r; next_handle := next_handle r |}.

(** The connection of the socket in the ref is established and its
    [onopen] handler runs: it sets the status line.  (The handler also
    sends the configuration frame; frames sent on the socket are not
    part of this state.) *)
Definition socket_opened (r : Runtime) : Runtime :=
  {| player :=
       with_app
         (λ s, setStatusMessage
                 match ws r with
                 | Some i =>
                     match sockets r !! i with
                     | Some CONNECTING =>
                         lit "Connected to server. Start reciting!"
                     | _ => statusMessage s
                     end
                 | None => statusMessage s
                 end s)
         (player r);
     ws := ws r;
     sockets :=
       match ws r with
       | Some i =>
           alter (λ st, match st with CONNECTING => OPEN | _ => st end)
                 i (sockets r)
       | None => sockets r
       end;
     mediaRecorder := mediaRecorder r;
     audioStream := audioStream r;
     animationFrameId := animationFrameId r;
     silenceTimeoutId := silenceTimeoutId r;
     intervals := intervals r; frames := frames r;
     timeouts := timeouts r; next_handle := next_handle r |}.

(** A session from the click on Start to the click on Stop and the
    effect that follows it. *)
Definition session (r : Runtime) : Runtime :=
  socket_effect
    (onClick true (socket_opened (socket_effect (onClick true r)))).

(** Nothing of a capture session is left: no socket that is
    connecting or open, no live interval, frame request or timeout,
    no live device track. *)
Definition released (r : Runtime) : Prop :=
  Forall (λ st, st = CLOSING ∨ st = CLOSED) (sockets r)
  ∧ intervals r = ∅ ∧ frames r = ∅ ∧ timeouts r = ∅
  ∧ audioStream r ≠ Some true.

End Capture.

(** ** User id: the effect that initializes or restores it *)

Module Identity.

(** [stored] is the item under [qra_user_id] ([null] when it is
    missing), [uuid] what [crypto.randomUUID()] would return.  The
    result is the [userId] state and the item after the effect. *)
Definition restore_userId (uuid : jsstring) (stored : option jsstring)
  : jsstring * option jsstring :=
  match Session.truthy stored with
  | Some uid => (uid, stored)
  | None => (uuid, Some uuid)
  end.

End Identity.

(** ** Audio transport: the recorder's chunks and their flushes *)

Module Transport.

Import Capture.

(** [audioChunks] holds the blobs the recorder delivered (as bytes);
    [sent] lists the binary frames handed to [ws.current.send] for an
    open socket, the oldest first. *)
Record Pipeline := {
  recorder : option RecorderState;
  audioChunks : list (list N);
  sent : list (list N);
  lastAudioTimestamp : Z;
}.

(** [mediaRecorder.current.ondataavailable] *)
Definition ondataavailable (chunk : list N) (t : Pipeline) : Pipeline :=
  {| recorder := recorder t;
     audioChunks := audioChunks t ++ [chunk];
     sent := sent t;
     lastAudioTimestamp := lastAudioTimestamp t |}.

(** [audioChunks.current = []] *)
Definition clear_chunks (t : Pipeline) : Pipeline :=
  {| recorder := recorder t;
     audioChunks := [];
     sent := sent t;
     lastAudioTimestamp := lastAudioTimestamp t |}.

(** The interval callback up to its [await].  [socket] is what
    [ws.current] is at that moment: [None] for [null], else the
    [readyState].  With an open socket the callback suspends holding
    the blob made of the chunks; otherwise it clears the chunks (when
    the recorder is recording and there are some) and returns. *)
Definition flush_begin (socket : option ReadyState) (t : Pipeline)
  : Pipeline * option (list N) :=
  match recorder t, audioChunks t with
  | Some Recording, _ :: _ =>
      match socket with
      | Some OPEN => (t, Some (concat (audioChunks t)))
      | _ => (clear_chunks t, None)
      end
  | _, _ => (t, None)
  end.

(** [ws.current.send(data)]: [None] when it throws (a [null] ref, or a
    socket that is still connecting); data given to a closing or
    closed socket is discarded. *)
Definition ws_send (socket : option ReadyState) (data : list N)
           (frames : list (list N)) : option (list (list N)) :=
  match socket with
  | None | Some CONNECTING => None
  | Some OPEN => Some (frames ++ [data])
  | Some CLOSING | Some CLOSED => Some frames
  end.

(** The interval callback after its [await], with the socket of that
    moment: send, note the time, clear the chunks.  [None] when [send]
    throws, which leaves everything as it is. *)
Definition flush_resume (socket : option ReadyState) (time : Z)
           (blob : list N) (t : Pipeline) : option Pipeline :=
  match ws_send socket blob (sent t) with
  | Some frames =>
      Some {| recorder := recorder t;
              audioChunks := [];
              sent := frames;
              lastAudioTimestamp := time |}
  | None => None
  end.

(** A flush during which nothing else runs. *)
Definition flush (socket : option ReadyState) (time : Z) (t : Pipeline)
  : option Pipeline :=
  match flush_begin socket t with
  | (t', Some blob) => flush_resume socket time blob t'
  | (t', None) => Some t'
  end.

(** [mediaRecorder.current.onstop], in the same two halves. *)
Definition onstop_begin (socket : option ReadyState) (t : Pipeline)
  : Pipeline * option (list N) :=
  match audioChunks t, socket with
  | _ :: _, Some OPEN => (t, Some (concat (audioChunks t)))
  | _, _ => (clear_chunks t, None)
  end.

Definition onstop_resume (socket : option ReadyState) (blob : list N)
           (t : Pipeline) : option Pipeline :=
  match ws_send socket blob (sent t) with
  | Some frames =>
      Some {| recorder := recorder t;
              audioChunks := [];
              sent := frames;
              lastAudioTimestamp := lastAudioTimestamp t |}
  | None => None
  end.

(** What happens to the pipeline while the socket stays open: a chunk
    arrives, or the interval fires and its flush runs through. *)
Inductive Activity :=
| Data (chunk : list N)
| Tick (time : Z).

Fixpoint stream (acts : list Activity) (t : Pipeline) : option Pipeline :=
  match acts with
  | [] => Some t
  | Data chunk :: acts' => stream acts' (ondataavailable chunk t)
  | Tick time :: acts' =>
      match flush (Some OPEN) time t with
      | Some t' => stream acts' t'
      | None => None
      end
  end.

(** The bytes the recorder delivered in a run of activities. *)
Fixpoint recorded (acts : list Activity) : list N :=
  match acts with
  | [] => []
  | Data chunk :: acts' => chunk ++ recorded acts'
  | Tick _ :: acts' => recorded acts'
  end.

(** What [ws.current] is: [null] or the [readyState] of its socket. *)
Definition socket_of (r : Runtime) : option ReadyState :=
  match ws r with
  | Some i => sockets r !! i
  | None => None
  end.

End Transport.

(** ** Voice activity: [checkSilence] *)

Module Monitor.

Import Playback Capture.

(** [analyser.frequencyBinCount], half of the [fftSize] of 2048. *)
Definition bufferLength : N := 1024.

(** [dataArray.reduce((a, b) => a + b, 0)] *)
Definition total (dataArray : list N) : N := foldl N.add 0 dataArray.

(** [sum / bufferLength > 10].  The sum of byte values is an integer
    and the divisor a power of two, so the quotient is exact and the
    test is [sum > 10 * bufferLength]. *)
Definition voice_detected (dataArray : list N) : bool :=
  10 * bufferLength <? total dataArray.

(** One run of [checkSilence] for the pending frame request [h].
    [playing] is the [isSpokenCorrectionPlaying] of the render whose
    [startListening] created the function: the loop keeps calling the
    same closure.  [None] when [h] is not pending (it was cancelled). *)
Definition checkSilence (playing : bool) (h : nat) (dataArray : list N)
           (r : Runtime) : option Runtime :=
  if decide (h ∈ frames r) then
    let next := S (next_handle r) in
    Some
      {| player :=
           if playing && voice_detected dataArray then
             match spokenCorrectionSource (player r) with
             | Some src =>
                 {| app := setIsSpokenCorrectionPlaying false
                             (app (player r));
                    spokenCorrectionSource := None;
                    sounding := silence src (sounding (player r));
                    created := created (player r);
                    awaiting := awaiting (player r) |}
             | None => player r
             end
           else player r;
         ws := ws r; sockets := sockets r;
         mediaRecorder := mediaRecorder r;
         audioStream := audioStream r;
         animationFrameId := Some next;
         silenceTimeoutId := silenceTimeoutId r;
         intervals := intervals r;
         frames := {[next]} ∪ (frames r ∖ {[h]});
         timeouts := timeouts r;
         next_handle := next |}
  else None.

(** The next frame of the only loop there is: the pending request is
    the one the ref holds. *)
Definition frame (playing : bool) (dataArray : list N) (r : Runtime)
  : option Runtime :=
  match animationFrameId r with
  | Some h => checkSilence playing h dataArray r
  | None => None
  end.

Fixpoint frames_run (playing : bool) (datas : list (list N)) (r : Runtime)
  : option Runtime :=
  match datas with
  | [] => Some r
  | dataArray :: datas' =>
      match frame playing dataArray r with
      | Some r' => frames_run playing datas' r'
      | None => None
      end
  end.

(** A call of [playSpokenCorrection] that runs through, inside the
    runtime. *)
Definition play (decoded : bool) (r : Runtime) : Runtime :=
  {| player := playSpokenCorrection_alone decoded (player r);
     ws := ws r; sockets := sockets r;
     mediaRecorder := mediaRecorder r;
     audioStream := audioStream r;
     animationFrameId := animationFrameId r;
     silenceTimeoutId := silenceTimeoutId r;
     intervals := intervals r; frames := frames r;
     timeouts := timeouts r; next_handle := next_handle r |}.

(** No live registration has a handle above the counter. *)
Definition handles_bounded (r : Runtime) : Prop :=
  (∀ h, h ∈ intervals r → (h ≤ next_handle r)%nat)
  ∧ (∀ h, h ∈ frames r → (h ≤ next_handle r)%nat).

(** The loop of one session over the frame requests [F] of others:
    its own request is pending, is the one of the ref, and no handle is
    above the counter. *)
Definition loop_pending (F : gset nat) (r : Runtime) : Prop :=
  ∃ h, animationFrameId r = Some h
       ∧ frames r = {[h]} ∪ F ∧ (h ∉ F)
       ∧ ∀ x, x ∈ F → (x ≤ next_handle r)%nat.

End Monitor.

(** ** Channel events and the re-run of the socket effect *)

Module Channel.

Import Session Playback Capture.

(** [ws.current.onclose] *)
Definition onclose (s : AppState) : AppState :=
  setIsListening false (setStatusMessage (lit "Disconnected from server.") s).

(** [ws.current.onerror] *)
Definition onerror (s : AppState) : AppState :=
  setIsListening false
    (setStatusMessage (lit "WebSocket error. Check server connection.") s).

Definition set_app (f : AppState → AppState) (r : Runtime) : Runtime :=
  {| player := with_app f (player r);
     ws := ws r; sockets := sockets r;
     mediaRecorder := mediaRecorder r;
     audioStream := audioStream r;
     animationFrameId := animationFrameId r;
     silenceTimeoutId := silenceTimeoutId r;
     intervals := intervals r; frames := frames r;
     timeouts := timeouts r; next_handle := next_handle r |}.

(** The close event of socket [i], whoever closed it: the socket is
    closed and its [onclose] handler runs.  The socket effect runs
    again when that changed [isListening]. *)
Definition socket_closed (i : nat) (r : Runtime) : Runtime :=
  let r1 :=
    {| player := with_app onclose (player r);
       ws := ws r;
       sockets := alter (λ _, CLOSED) i (sockets r);
       mediaRecorder := mediaRecorder r;
       audioStream := audioStream r;
       animationFrameId := animationFrameId r;
       silenceTimeoutId := silenceTimeoutId r;
       intervals := intervals r; frames := frames r;
       timeouts := timeouts r; next_handle := next_handle r |} in
  if listening r then socket_effect r1 else r1.

(** A message arrives on the socket of the ref and the handler runs;
    the socket effect, which lists [currentSura] and [currentAya]
    among its dependencies, runs again when one of them changed. *)
Definition deliver (atob : jsstring → option jsstring) (cl : Closure)
           (env : Env) (msg : Message) (r : Runtime) : Runtime * Feedback :=
  let s := app (player r) in
  let s' := fst (onmessage atob cl env msg s) in
  let r1 := set_app (λ _, s') r in
  (if decide (currentSura s' = currentSura s ∧ currentAya s' = currentAya s)
   then r1 else socket_effect r1,
   snd (onmessage atob cl env msg s)).

(** No socket is connecting or open. *)
Definition no_channel (r : Runtime) : Prop :=
  Forall (λ st, st = CLOSING ∨ st = CLOSED) (sockets r).

End Channel.

(** ** Correct-sample recording and upload *)

Module CorrectSample.

Import Capture Training.

(** The recorder [startRecordingCorrectSample] creates, with its
    stream and the two arguments its [onstop] handler closes over;
    [sr_stopping] says that [stop()] was called and the stop event is
    still to come. *)
Record SampleRecorder := {
  sr_state : RecorderState;
  sr_stream_live : bool;
  sr_mistakeId : option jsstring;
  sr_referenceText : jsstring;
  sr_stopping : bool;
}.

Record Workflow := {
  wf_app : AppState;
  showCorrectionModal : bool;
  modalMistakeId : option jsstring;
  modalReferenceText : jsstring;
  isRecordingCorrectSample : bool;
  correctSampleRecorder : option SampleRecorder;
  correctSampleChunks : list (list N);
  trainingUploads : StoredUploads;
}.

(** The "Correct (Recite)" button of a queue row. *)
Definition open_modal (mistake : Mistake) (w : Workflow) : Workflow :=
  {| wf_app := wf_app w;
     showCorrectionModal := true;
     modalMistakeId := Some (id mistake);
     modalReferenceText := reference_segment mistake;
     isRecordingCorrectSample := isRecordingCorrectSample w;
     correctSampleRecorder := correctSampleRecorder w;
     correctSampleChunks := correctSampleChunks w;
     trainingUploads := trainingUploads w |}.

(** [startRecordingCorrectSample(mistakeId, referenceText)];
    [granted] tells whether [getUserMedia] resolves. *)
Definition startRecordingCorrectSample (granted : bool)
           (mistakeId : option jsstring) (referenceText : jsstring)
           (w : Workflow) : Workflow :=
  if granted then
    {| wf_app :=
         setStatusMessage (lit "Recording your correct recitation...")
           (wf_app w);
       showCorrectionModal := showCorrectionModal w;
       modalMistakeId := modalMistakeId w;
       modalReferenceText := modalReferenceText w;
       isRecordingCorrectSample := true;
       correctSampleRecorder :=
         Some {| sr_state := Recording; sr_stream_live := true;
                 sr_mistakeId := mistakeId;
                 sr_referenceText := referenceText;
                 sr_stopping := false |};
       correctSampleChunks := [];
       trainingUploads := trainingUploads w |}
  else
    {| wf_app :=
         setStatusMessage
           (lit "Could not record correct sample. Microphone access denied.")
           (wf_app w);
       showCorrectionModal := showCorrectionModal w;
       modalMistakeId := modalMistakeId w;
       modalReferenceText := modalReferenceText w;
       isRecordingCorrectSample := false;
       correctSampleRecorder := correctSampleRecorder w;
       correctSampleChunks := correctSampleChunks w;
       trainingUploads := trainingUploads w |}.

(** [correctSampleRecorder.current.ondataavailable] *)
Definition sample_data (chunk : list N) (w : Workflow) : Workflow :=
  {| wf_app := wf_app w;
     showCorrectionModal := showCorrectionModal w;
     modalMistakeId := modalMistakeId w;
     modalReferenceText := modalReferenceText w;
     isRecordingCorrectSample := isRecordingCorrectSample w;
     correctSampleRecorder := correctSampleRecorder w;
     correctSampleChunks := correctSampleChunks w ++ [chunk];
     trainingUploads := trainingUploads w |}.

(** [stopRecordingCorrectSample()]: a recording recorder is stopped
    (its stop event comes later), the tracks of its stream are
    stopped. *)
Definition stopRecordingCorrectSample (w : Workflow) : Workflow :=
  {| wf_app :=
       setStatusMessage (lit "Correct sample recording stopped.") (wf_app w);
     showCorrectionModal := showCorrectionModal w;
     modalMistakeId := modalMistakeId w;
     modalReferenceText := modalReferenceText w;
     isRecordingCorrectSample := false;
     correctSampleRecorder :=
       match correctSampleRecorder w with
       | Some rec =>
           Some {| sr_state := Inactive;
                   sr_stream_live := false;
                   sr_mistakeId := sr_mistakeId rec;
                   sr_referenceText := sr_referenceText rec;
                   sr_stopping :=
                     match sr_state rec with
                     | Recording => true
                     | Inactive => sr_stopping rec
                     end |}
       | None => None
       end;
     correctSampleChunks := correctSampleChunks w;
     trainingUploads := trainingUploads w |}.

(** The Cancel button of the modal. *)
Definition cancel (w : Workflow) : Workflow :=
  let w1 := if isRecordingCorrectSample w
            then stopRecordingCorrectSample w else w in
  {| wf_app := wf_app w1;
     showCorrectionModal := false;
     modalMistakeId := None;
     modalReferenceText := [];
     isRecordingCorrectSample := isRecordingCorrectSample w1;
     correctSampleRecorder := correctSampleRecorder w1;
     correctSampleChunks := correctSampleChunks w1;
     trainingUploads := trainingUploads w1 |}.

(** The request [uploadCorrectSample] posts. *)
Record SampleRequest := {
  q_filename : jsstring;
  q_sample_type : jsstring;
  q_reference_text : jsstring;
  q_original_mistake_id : jsstring;
  q_body : list N;
}.

(** [x || y] for a string or [null] on the left. *)
Definition or_else (x : option jsstring) (y : jsstring) : jsstring :=
  match Session.truthy x with
  | Some v => v
  | None => y
  end.

Definition sample_filename (name_time : Z) (originalMistakeId : option jsstring)
  : jsstring :=
  lit "correct_recitation_"
    ++ or_else originalMistakeId (of_number name_time) ++ lit ".webm".

Definition sample_request (name_time : Z) (blob : list N) (text : jsstring)
           (originalMistakeId : option jsstring) : SampleRequest :=
  {| q_filename := sample_filename name_time originalMistakeId;
     q_sample_type := lit "correct_recitation_sample";
     q_reference_text := or_else (Some text) [];
     q_original_mistake_id := or_else originalMistakeId [];
     q_body := blob |}.

Definition sample_record (env : Env) (name_time : Z) (blob : list N)
           (text : jsstring) (originalMistakeId : option jsstring)
  : TrainingUploadRecord :=
  {| r_id := randomUUID env;
     r_fileName := sample_filename name_time originalMistakeId;
     r_text := Some text;
     r_originalMistakeId := originalMistakeId;
     r_type := lit "correct_recitation_sample";
     r_timestamp := now env;
     r_fileSize := Z.of_nat (length blob);
     r_fileType := lit "audio/webm" |}.

Definition sample_failed_message : jsstring :=
  lit "Failed to upload correct sample.".

(** [uploadCorrectSample(audioBlob, text, originalMistakeId)];
    [name_time] is the [Date.now()] of the file name, [env] holds the
    id and the time of the record. *)
Definition uploadCorrectSample (env : Env) (name_time : Z)
           (res : FetchOutcome) (blob : list N) (text : jsstring)
           (originalMistakeId : option jsstring)
           (s : AppState) (store : StoredUploads)
  : SampleRequest * AppState * StoredUploads :=
  let request := sample_request name_time blob text originalMistakeId in
  let uploading :=
    setStatusMessage (lit "Uploading correct sample for training...") s in
  let caught (s' : AppState) :=
    (request, setStatusMessage sample_failed_message s', store) in
  match res with
  | Rejected => caught uploading
  | Responded status body_is_json =>
      if negb (ok status) then caught uploading
      else if negb body_is_json then caught uploading
      else
        let uploaded :=
          setStatusMessage
            (lit "Correct sample for " ++ dquote ++ text ++ dquote
               ++ lit " uploaded successfully!")
            uploading in
        let record :=
          sample_record env name_time blob text originalMistakeId in
        match store with
        | Unparsable => caught uploaded
        | Absent => (request, uploaded, Stored [record])
        | Stored existing => (request, uploaded, Stored (record :: existing))
        end
  end.

(** The stop event of the recorder in the ref: its [onstop] handler,
    with nothing else running while the upload is awaited.  [None]
    when no stop is pending. *)
Definition sample_stopped (env : Env) (name_time : Z) (res : FetchOutcome)
           (w : Workflow) : option (SampleRequest * Workflow) :=
  match correctSampleRecorder w with
  | Some rec =>
      if sr_stopping rec then
        let out :=
          uploadCorrectSample env name_time res
            (concat (correctSampleChunks w)) (sr_referenceText rec)
            (sr_mistakeId rec) (wf_app w) (trainingUploads w) in
        Some
          (out.1.1,
           {| wf_app := out.1.2;
              showCorrectionModal := false;
              modalMistakeId := modalMistakeId w;
              modalReferenceText := modalReferenceText w;
              isRecordingCorrectSample := false;
              correctSampleRecorder :=
                Some {| sr_state := Inactive;
                        sr_stream_live := false;
                        sr_mistakeId := sr_mistakeId rec;
                        sr_referenceText := sr_referenceText rec;
                        sr_stopping := false |};
              correctSampleChunks := [];
              trainingUploads := out.2 |})
      else None
  | None => None
  end.

(** Nothing recorded yet, no modal. *)
Definition idle_workflow : Workflow :=
  {| wf_app := initial;
     showCorrectionModal := false;
     modalMistakeId := None;
     modalReferenceText := [];
     isRecordingCorrectSample := false;
     correctSampleRecorder := None;
     correctSampleChunks := [];
     trainingUploads := Absent |}.

End CorrectSample.

(** ** The service worker: precache on install, cache first on fetch *)

Module ServiceWorker.

Record Request := {
  rq_method : jsstring;
  rq_url : jsstring;
}.

Record Response := {
  rs_status : Z;
  rs_body : list N;
}.

Definition GET (url : jsstring) : Request :=
  {| rq_method := lit "GET"; rq_url := url |}.

Definition urlsToCache : list jsstring :=
  [ lit "/"; lit "/src/main.jsx"; lit "/src/app.jsx"; lit "/src/index.css";
    lit "/icons/icon-192x192.png"; lit "/icons/icon-512x512.png";
    lit "/manifest.json" ].

(** [cache.addAll(urls)] on the cache [c]: every URL is fetched; when
    a fetch rejects or answers with a status that is not ok the call
    rejects and the cache stays as it is ([None]); otherwise every
    response is stored under its URL.  [net] is what [fetch] resolves
    to, [None] for a rejection. *)
Fixpoint addAll (net : Request → option Response) (urls : list jsstring)
         (c : gmap jsstring Response) : option (gmap jsstring Response) :=
  match urls with
  | [] => Some c
  | url :: urls' =>
      match net (GET url) with
      | Some response =>
          if ok (rs_status response) then
            match addAll net urls' c with
            | Some c' => Some (<[url := response]> c')
            | None => None
            end
          else None
      | None => None
      end
  end.

(** The [install] listener, on the cache named [CACHE_NAME]. *)
Definition oninstall (net : Request → option Response)
           (c : gmap jsstring Response) : option (gmap jsstring Response) :=
  addAll net urlsToCache c.

(** [caches.match(request)]: only a GET request matches, by its URL. *)
Definition cache_match (request : Request) (c : gmap jsstring Response)
  : option Response :=
  if decide (rq_method request = lit "GET") then c !! rq_url request
  else None.

(** The [fetch] listener: the response it answers with ([None] when
    the network fetch rejects) and whether it went to the network. *)
Definition onfetch (net : Request → option Response)
           (c : gmap jsstring Response) (request : Request)
  : option Response * bool :=
  match cache_match request c with
  | Some response => (Some response, false)
  | None => (net request, true)
  end.

End ServiceWorker.

(** ** Runs of the player in which calls do not overlap *)

Module PlaybackRuns.

Import Playback.

(** An event that keeps the order of a run without overlap: a call of
    [playSpokenCorrection] starts only when no call waits for its
    decode, and the ended event of a source is handled while the ref
    holds that source or nothing, so that the event of a source that
    was stopped comes before the next source is stored in the ref (as
    it does when it comes while the call that stopped it waits for its
    decode). *)
Definition orderly (e : Event) (p : Player) : Prop :=
  match e with
  | Call => awaiting p = 0%nat
  | Decoded _ => True
  | Ended src =>
      spokenCorrectionSource p = None ∨ spokenCorrectionSource p = Some src
  end.

(** Every event of the run can occur and is orderly when it does. *)
Fixpoint all_orderly (es : list Event) (p : Player) : Prop :=
  match es with
  | [] => True
  | e :: es' =>
      orderly e p
      ∧ match step e p with
        | Some p' => all_orderly es' p'
        | None => False
        end
  end.

End PlaybackRuns.

(** ** Scenarios

    The concrete inputs of the scenarios: the verse text, a queue with
    an unsynced record A and a synced record B, a run of the message
    handler, an audio file and another file. *)

Module Scenario.

(** The text of the first scenario, as UTF-16 code units: three
    Arabic letters, a space, four Arabic letters. *)
Definition bismi_allah : jsstring :=
  [1576; 1587; 1605; 32; 1575; 1604; 1604; 1607].

Definition recA : Mistake :=
  {| id := lit "a";
     sura := lit "Al-Fatiha";
     aya := bismi_allah;
     transcription_segment := lit "bsm";
     reference_segment := lit "bism";
     mistake_type := lit "replacement";
     timestamp := 1000;
     verified := Pending;
     synced := false |}.

Definition recB : Mistake :=
  {| id := lit "b";
     sura := lit "Al-Fatiha";
     aya := bismi_allah;
     transcription_segment := lit "alh";
     reference_segment := lit "allah";
     mistake_type := lit "deletion";
     timestamp := 900;
     verified := Incorrect;
     synced := true |}.

(** The queue holds A in front of B. *)
Definition queue_AB : AppState := setMistakeQueue (λ _, [recA; recB]) initial.

Definition closure_spoken : Session.Closure :=
  {| Session.cl_feedbackMode := Spoken;
     Session.cl_currentSura := lit "Al-Fatiha";
     Session.cl_currentAya := bismi_allah |}.

Definition env_c : Env := {| randomUUID := lit "c"; now := 1100 |}.

Definition mistake_msg : MistakeMsg :=
  {| m_mistake_type := lit "replacement";
     m_reference_word := lit "bism";
     m_transcribed_word := lit "bsm";
     m_transcribed_segment := lit "bsm";
     m_reference_segment := lit "bism";
     m_correction_audio_base64 := Some (lit "AAEC") |}.

(** An [atob] that accepts every text and returns it as it is. *)
Definition atob_id (b64 : jsstring) : option jsstring := Some b64.

Definition diff_scenario : list DiffEntry :=
  [ {| d_type := Equal; d_index := 0; d_word := [1576; 1587; 1605] |};
    {| d_type := ReplacementRef; d_index := 1;
       d_word := [1575; 1604; 1604; 1607] |} ].

Definition wav_file : File :=
  {| f_name := lit "ruku.wav"; f_type := lit "audio/wav"; f_size := 2048 |}.

Definition pdf_file : File :=
  {| f_name := lit "notes.pdf"; f_type := lit "application/pdf";
     f_size := 512 |}.

End Scenario.

(** ** More concrete inputs: a session in progress, a pipeline with
       buffered chunks, a sample recording under way, two networks,
       two analyser frames. *)

Module Cases.

Import Playback Capture Transport Monitor CorrectSample ServiceWorker
       Scenario.

(** Start was clicked, the socket connected. *)
Definition live_session : Runtime :=
  socket_opened (socket_effect (onClick true idle_runtime)).

(** A session in which a correction is playing. *)
Definition playing_session : Runtime := play true (onClick true idle_runtime).

Definition buffered : Pipeline :=
  {| recorder := Some Recording;
     audioChunks := [[1; 2]; [3]];
     sent := [[9]];
     lastAudioTimestamp := 0 |}.

Definition sample_recorder : SampleRecorder :=
  {| sr_state := Recording;
     sr_stream_live := true;
     sr_mistakeId := Some (id recA);
     sr_referenceText := reference_segment recA;
     sr_stopping := false |}.

(** The modal was opened on A, the recording started, one chunk came. *)
Definition recording_sample : Workflow :=
  sample_data [7; 8]
    (startRecordingCorrectSample true (Some (id recA))
       (reference_segment recA) (open_modal recA idle_workflow)).

Definition net_ok (request : Request) : option Response :=
  Some {| rs_status := 200; rs_body := rq_url request |}.

Definition net_down (request : Request) : option Response := None.

(** Every bin at 11, every bin at 10. *)
Definition loud_frame : list N := replicate 1024 11.

Definition quiet_frame : list N := replicate 1024 10.

End Cases.

(** * Properties *)

(** ** Splitting on whitespace *)

Section SplitFacts.

Implicit Types (s cur w : jsstring) (inws : bool).

(** Every token of the scan is made of non-separator characters,
    provided the open token is. *)
Lemma split_aux_no_ws s : ∀ inws cur,
  Forall (λ c, is_ws c = false) cur →
  Forall (Forall (λ c, is_ws c = false)) (split_aux inws cur s).
Proof.
  induction s as [|c s IH]; intros inws cur Hcur; simpl.
  - constructor; [by apply Forall_reverse | constructor].
  - destruct (is_ws c) eqn:Hc.
    + destruct inws.
      * by apply IH.
      * constructor; [by apply Forall_reverse | apply IH; constructor].
    + apply IH. by constructor.
Qed.

(** The tokens, put end to end, are the text without its separator
    characters. *)
Lemma split_aux_concat s : ∀ inws cur,
  concat (split_aux inws cur s)
  = reverse cur ++ List.filter (λ c, negb (is_ws c)) s.
Proof.
  induction s as [|c s IH]; intros inws cur; simpl.
  - by rewrite !app_nil_r.
  - destruct (is_ws c) eqn:Hc; simpl.
    + destruct inws; simpl; rewrite IH; [done|].
      by rewrite reverse_nil.
    + rewrite IH, reverse_cons, <- app_assoc. done.
Qed.

Lemma concat_filter_nonempty (l : list jsstring) :
  concat (List.filter nonempty l) = concat l.
Proof.
  induction l as [|w l IH]; [done|].
  destruct w; simpl; by rewrite IH.
Qed.

Lemma words_no_ws s :
  Forall (λ w, w ≠ [] ∧ Forall (λ c, is_ws c = false) w) (words s).
Proof.
  unfold words, split_ws.
  pose proof (split_aux_no_ws s false [] (List.Forall_nil _)) as H.
  induction H as [|w l Hw _ IH]; simpl; [constructor|].
  destruct w; simpl; [done|]. constructor; [split; done | done].
Qed.

Lemma words_concat s :
  concat (words s) = List.filter (λ c, negb (is_ws c)) s.
Proof.
  unfold words, split_ws.
  by rewrite concat_filter_nonempty, split_aux_concat, reverse_nil.
Qed.

(** Entering a separator run with no open token changes nothing once
    the empty tokens are dropped. *)
Lemma split_aux_inws s :
  List.filter nonempty (split_aux true [] s)
  = List.filter nonempty (split_aux false [] s).
Proof.
  destruct s as [|c s]; simpl; [done|].
  by destruct (is_ws c).
Qed.

(** A separator character cuts the text in two independent parts. *)
Lemma split_aux_app_ws a c b : ∀ inws cur,
  is_ws c = true → (inws = true → cur = []) →
  List.filter nonempty (split_aux inws cur (a ++ c :: b))
  = List.filter nonempty (split_aux inws cur a)
      ++ List.filter nonempty (split_aux false [] b).
Proof.
  intros inws cur Hc. revert inws cur.
  induction a as [|x a IH]; intros inws cur Hinv; simpl.
  - rewrite Hc. destruct inws.
    + rewrite (Hinv eq_refl). simpl. apply split_aux_inws.
    + simpl. rewrite split_aux_inws.
      by destruct (nonempty (reverse cur)).
  - destruct (is_ws x) eqn:Hx.
    + destruct inws.
      * by apply IH.
      * simpl. rewrite IH by done.
        by destruct (nonempty (reverse cur)).
    + by apply IH.
Qed.

Lemma words_app_ws a c b :
  is_ws c = true → words (a ++ c :: b) = words a ++ words b.
Proof. intros Hc. unfold words, split_ws. by apply split_aux_app_ws. Qed.

(** A run of non-separator characters is one token. *)
Lemma split_aux_run w : ∀ cur,
  Forall (λ c, is_ws c = false) w →
  split_aux false cur w = [reverse cur ++ w].
Proof.
  induction w as [|c w IH]; intros cur Hw; simpl.
  - by rewrite app_nil_r.
  - inversion Hw as [|? ? Hc Hw']; subst. rewrite Hc, IH by done.
    by rewrite reverse_cons, <- app_assoc.
Qed.

Lemma words_run w :
  w ≠ [] → Forall (λ c, is_ws c = false) w → words w = [w].
Proof.
  intros Hne Hw. unfold words, split_ws.
  rewrite split_aux_run by done. rewrite reverse_nil. simpl.
  by destruct w.
Qed.

Lemma words_nil : words [] = [].
Proof. reflexivity. Qed.

(** [startsWith] is the prefix test. *)
Lemma startsWith_prefix p : ∀ s,
  startsWith s p = true ↔ ∃ rest, s = p ++ rest.
Proof.
  induction p as [|a p IH]; intros s.
  - split; [intros _; by exists s | by destruct s].
  - destruct s as [|b s]; simpl.
    + split; [done | intros [rest Hrest]; done].
    + rewrite andb_true_iff, N.eqb_eq, IH. split.
      * intros [-> [rest ->]]. by exists rest.
      * intros [rest Hrest]. simplify_eq. split; [done | by exists rest].
Qed.

End SplitFacts.

(** ** Session protocol *)

Section SessionFacts.

Import Session Scenario.

Variable atob : jsstring → option jsstring.

Lemma elem_of_newHighlightedWords diff (i : Z) :
  i ∈ newHighlightedWords diff
  ↔ ∃ d, d ∈ diff
         ∧ (d_type d = Deletion ∨ d_type d = ReplacementRef)
         ∧ d_index d = i.
Proof.
  unfold newHighlightedWords. rewrite list_elem_of_fmap. split.
  - intros (d & -> & Hd). apply list_elem_of_In, filter_In in Hd.
    destruct Hd as [Hin Hh]. exists d. split; [by apply list_elem_of_In|].
    split; [|done]. unfold is_highlight in Hh.
    destruct (d_type d); auto; done.
  - intros (d & Hin & Hty & <-). exists d. split; [done|].
    apply list_elem_of_In, filter_In. split; [by apply list_elem_of_In|].
    unfold is_highlight. by destruct Hty as [-> | ->].
Qed.

(** A [diff_update] touches the highlights only. *)
Lemma onmessage_diff_update cl env diff s :
  fst (onmessage atob cl env (DiffUpdate diff) s)
  = setHighlightedWords (newHighlightedWords diff) s.
Proof. reflexivity. Qed.

(** A run of [diff_update] messages keeps the verse and, when it is
    not empty, ends with the highlights of its last message. *)
Lemma run_diff_updates evs : ∀ s,
  let s' := run atob (diff_updates evs) s in
  currentSura s' = currentSura s
  ∧ currentAya s' = currentAya s
  ∧ currentVerseWords s' = currentVerseWords s
  ∧ mistakeQueue s' = mistakeQueue s
  ∧ highlightedWords s'
    = match last evs with
      | Some e => newHighlightedWords e.2
      | None => highlightedWords s
      end.
Proof.
  induction evs as [|[[cl env] diff] evs IH]; intros s; [done|].
  simpl. specialize (IH (setHighlightedWords (newHighlightedWords diff) s)).
  simpl in IH. destruct IH as (-> & -> & -> & -> & ->).
  repeat split. rewrite last_cons. by destruct (last evs).
Qed.

(** C3.  After any sequence of [diff_update] messages, the
    highlighted indices are exactly the [index] fields of the entries
    of the latest message's [diff] whose type is [deletion] or
    [replacement_ref], and the verse context (sura name, ayah text,
    word list) is what it was before the sequence. *)
Theorem diff_update_highlights
        (earlier : list (Closure * Env * list DiffEntry))
        (cl : Closure) (env : Env) (diff : list DiffEntry) (s : AppState) :
  let s' := run atob (diff_updates (earlier ++ [(cl, env, diff)])) s in
  highlightedWords s' = d_index <$> List.filter is_highlight diff
  ∧ (∀ i : Z,
       i ∈ highlightedWords s'
       ↔ ∃ d, d ∈ diff
              ∧ (d_type d = Deletion ∨ d_type d = ReplacementRef)
              ∧ d_index d = i)
  ∧ currentSura s' = currentSura s
  ∧ currentAya s' = currentAya s
  ∧ currentVerseWords s' = currentVerseWords s.
Proof.
  intros s'.
  destruct (run_diff_updates (earlier ++ [(cl, env, diff)]) s)
    as (Hsura & Haya & Hwords & _ & Hhl).
  rewrite last_snoc in Hhl. fold s' in Hsura, Haya, Hwords, Hhl.
  repeat split; try done.
  - rewrite Hhl. by intros ?%elem_of_newHighlightedWords.
  - rewrite Hhl. by intros ?%elem_of_newHighlightedWords.
Qed.

(** C4.  A [verse_identified] message replaces the word list by the
    ayah text split on whitespace with the empty tokens dropped, and
    empties the highlights.  The words are non-empty and free of
    whitespace, and together they are the text without its
    whitespace; the text of the scenario gives its two words. *)
Theorem verse_identified_words
        (cl : Closure) (env : Env) (sura_name ayah_text : jsstring)
        (ayah_number : Z) (s : AppState) :
  let s' :=
    fst (onmessage atob cl env
           (VerseIdentified sura_name ayah_text ayah_number) s) in
  currentVerseWords s' = List.filter nonempty (split_ws ayah_text)
  ∧ highlightedWords s' = []
  ∧ Forall (λ w, w ≠ [] ∧ Forall (λ c, is_ws c = false) w)
           (currentVerseWords s')
  ∧ concat (currentVerseWords s')
    = List.filter (λ c, negb (is_ws c)) ayah_text
  ∧ currentVerseWords
      (fst (onmessage atob cl env
              (VerseIdentified sura_name bismi_allah ayah_number) s))
    = [[1576; 1587; 1605]; [1575; 1604; 1604; 1607]]
  ∧ highlightedWords
      (fst (onmessage atob cl env
              (VerseIdentified sura_name bismi_allah ayah_number) s))
    = [].
Proof.
  simpl. repeat split.
  - apply words_no_ws.
  - apply words_concat.
Qed.



End SessionFacts.

(** ** Mistake queue *)

Section QueueFacts.

Import Queue.

Lemma with_verification_payload status m :
  same_payload m (with_verification status m).
Proof. by repeat split. Qed.

Lemma with_synced_payload m : same_payload m (with_synced m).
Proof. by repeat split. Qed.

Lemma elem_of_unsynced_of q m :
  m ∈ unsynced_of q ↔ m ∈ q ∧ synced m = false.
Proof.
  unfold unsynced_of. rewrite !list_elem_of_In, filter_In.
  by rewrite negb_true_iff.
Qed.

Lemma elem_of_syncedIds (unsynced : list Mistake) (i : jsstring) :
  i ∈ syncedIds unsynced ↔ i ∈ (id <$> unsynced).
Proof. unfold syncedIds. apply elem_of_list_to_set. Qed.

Lemma mark_synced_lookup ids prev (i : nat) :
  mark_synced ids prev !! i
  = (λ m, if decide (id m ∈ ids) then with_synced m else m) <$> prev !! i.
Proof. unfold mark_synced. apply list_lookup_fmap. Qed.

(** C8.  Verifying the mistake with a given id sets the status of the
    record with that id to the given value and its sync flag to
    [false]; the other fields of that record, the records with
    another id, the length and the order of the queue, and the rest
    of the state but the status line are unchanged. *)
Theorem verification_frame
        (id0 : jsstring) (status : Verification) (s : AppState) :
  let s' := handleMistakeVerification id0 status s in
  length (mistakeQueue s') = length (mistakeQueue s)
  ∧ id <$> mistakeQueue s' = id <$> mistakeQueue s
  ∧ (∀ (i : nat) m,
       mistakeQueue s !! i = Some m → id m = id0 →
       ∃ m', mistakeQueue s' !! i = Some m'
             ∧ verified m' = status ∧ synced m' = false
             ∧ same_payload m m')
  ∧ (∀ (i : nat) m,
       mistakeQueue s !! i = Some m → id m ≠ id0 →
       mistakeQueue s' !! i = Some m)
  ∧ currentVerseWords s' = currentVerseWords s
  ∧ highlightedWords s' = highlightedWords s
  ∧ recordedAudioFile s' = recordedAudioFile s.
Proof.
  simpl. split_and!; try done.
  - by rewrite length_fmap.
  - rewrite <- list_fmap_compose. apply list_fmap_ext.
    intros i m _. simpl. by destruct (decide (id m = id0)).
  - intros i m Hm Hid. exists (with_verification status m).
    rewrite list_lookup_fmap, Hm. simpl.
    rewrite decide_True by done. split_and!; done.
  - intros i m Hm Hid. rewrite list_lookup_fmap, Hm. simpl.
    by rewrite decide_False.
Qed.

(** C7.  A sync attempt selects exactly the records whose sync flag
    is [false]; with none it makes no request and leaves the state as
    it is; otherwise the body of its request is those records, in
    queue order, without the sync flag and with every other field;
    and when the request fails (network error or non-success status)
    the state, hence every record, is what the handlers running
    meanwhile made of it. *)
Theorem sync_selection_and_failure
        (res : FetchOutcome) (during : AppState → AppState) (s : AppState) :
  (∀ m, m ∈ unsynced_of (mistakeQueue s)
        ↔ m ∈ mistakeQueue s ∧ synced m = false)
  ∧ (unsynced_of (mistakeQueue s) = [] →
     syncMistakes res during s = (None, s))
  ∧ (unsynced_of (mistakeQueue s) ≠ [] →
     fst (syncMistakes res during s)
     = Some {| mistakes := strip_synced <$> unsynced_of (mistakeQueue s) |})
  ∧ (∀ m, w_id (strip_synced m) = id m
          ∧ w_sura (strip_synced m) = sura m
          ∧ w_aya (strip_synced m) = aya m
          ∧ w_transcription_segment (strip_synced m)
            = transcription_segment m
          ∧ w_reference_segment (strip_synced m) = reference_segment m
          ∧ w_mistake_type (strip_synced m) = mistake_type m
          ∧ w_timestamp (strip_synced m) = timestamp m
          ∧ w_verified (strip_synced m) = verified m)
  ∧ (failed res →
     ∀ captured s', syncMistakes_settle captured res s' = s')
  ∧ (failed res → unsynced_of (mistakeQueue s) ≠ [] →
     snd (syncMistakes res during s) = during s).
Proof.
  split_and!.
  - intros m. apply elem_of_unsynced_of.
  - intros Hnone. unfold syncMistakes, syncMistakes_request.
    by rewrite Hnone.
  - intros Hsome. unfold syncMistakes, syncMistakes_request.
    by destruct (unsynced_of (mistakeQueue s)).
  - intros m. by repeat split.
  - intros Hfail captured s'. unfold syncMistakes_settle.
    destruct res as [status body|]; [|done]. simpl in Hfail.
    by rewrite Hfail.
  - intros Hfail Hsome. unfold syncMistakes, syncMistakes_request.
    destruct (unsynced_of (mistakeQueue s)); [done|].
    simpl. unfold syncMistakes_settle.
    destruct res as [status body|]; [|done]. simpl in Hfail.
    by rewrite Hfail.
Qed.

(** What the success handler marks.  When a sync attempt gets a
    success response, the records that are marked synced are exactly
    those whose id was in the unsynced set captured before the request:
    each of them gets the flag [true] and keeps its other fields as
    they are at that moment, and every record with another id is
    left as it is -- so a record that was not in the request and
    whose flag was reset while the request was in flight stays
    unsynced. *)
Theorem sync_success_marks_captured_ids
        (status : Z) (body : bool) (during : AppState → AppState)
        (s : AppState) :
  ok status = true →
  unsynced_of (mistakeQueue s) ≠ [] →
  let ids := id <$> unsynced_of (mistakeQueue s) in
  let s' := snd (syncMistakes (Responded status body) during s) in
  length (mistakeQueue s') = length (mistakeQueue (during s))
  ∧ (∀ (i : nat) m,
       mistakeQueue (during s) !! i = Some m → id m ∈ ids →
       mistakeQueue s' !! i = Some (with_synced m))
  ∧ (∀ (i : nat) m,
       mistakeQueue (during s) !! i = Some m → id m ∉ ids →
       mistakeQueue s' !! i = Some m)
  ∧ (∀ m', m' ∈ mistakeQueue s' → id m' ∉ ids →
           m' ∈ mistakeQueue (during s)).
Proof.
  intros Hok Hsome ids s'.
  assert (Hq : mistakeQueue s'
               = mark_synced (syncedIds (unsynced_of (mistakeQueue s)))
                             (mistakeQueue (during s))).
  { unfold s', syncMistakes, syncMistakes_request.
    destruct (unsynced_of (mistakeQueue s)) eqn:Hu; [done|].
    simpl. unfold syncMistakes_settle. by rewrite Hok, Hu. }
  rewrite Hq. split_and!.
  - unfold mark_synced. by rewrite length_fmap.
  - intros i m Hm Hin. rewrite mark_synced_lookup, Hm. simpl.
    by rewrite decide_True by by apply elem_of_syncedIds.
  - intros i m Hm Hin. rewrite mark_synced_lookup, Hm. simpl.
    rewrite decide_False; [done|]. by rewrite elem_of_syncedIds.
  - intros m' Hm' Hid. unfold mark_synced in Hm'.
    apply list_elem_of_fmap in Hm' as (m & -> & Hm).
    destruct (decide (id m ∈ _)) as [Hin|Hout]; [|done].
    exfalso. apply Hid. simpl. by apply elem_of_syncedIds.
Qed.

End QueueFacts.

(** ** Training uploads *)

Section TrainingFacts.

Import Training.

(* Literals stay folded in the goals of this section. *)
Opaque lit.

(** C10.  A file selection is stored exactly when a file was chosen
    and its media type starts with [audio/]; in every other case
    (another type, or no file) the stored selection becomes [null]
    and the status line carries the error message. *)
Theorem file_selection_accepts_audio (files0 : option File) (s : AppState) :
  let s' := handleAudioFileUpload files0 s in
  (∀ f, recordedAudioFile s' = Some f
        ↔ files0 = Some f ∧ ∃ rest, f_type f = lit "audio/" ++ rest)
  ∧ (recordedAudioFile s' = None
     ↔ files0 = None
       ∨ ∃ f, files0 = Some f
              ∧ startsWith (f_type f) (lit "audio/") = false)
  ∧ (recordedAudioFile s' = None → statusMessage s' = invalid_file_message)
  ∧ mistakeQueue s' = mistakeQueue s.
Proof.
  unfold handleAudioFileUpload.
  destruct files0 as [file|]; simpl.
  - destruct (startsWith (f_type file) (lit "audio/")) eqn:Hty; simpl.
    + pose proof (proj1 (startsWith_prefix _ _) Hty) as Hpre.
      split_and!; try done.
      * intros f. split; [by intros [= <-] | by intros [[= <-] _]].
      * split; [done|]. intros [? | (f & [= <-] & ?)]; congruence.
    + split_and!; try done.
      * intros f. split; [done|]. intros [[= <-] Hpre].
        apply startsWith_prefix in Hpre. congruence.
      * split; [|done]. intros _. right. by exists file.
  - split_and!; try done.
    + intros f. split; [done | by intros [? _]].
    + split; [by left | done].
Qed.

(** C9.  With a file selected, an upload whose response has a
    non-success status (500 for one) ends with the failure message on
    the status line, the upload log untouched and the selection still
    in place; the log changes or the selection is cleared only when
    the response is a success, and then the new record is put in
    front of the log and the selection is cleared. *)
Theorem upload_failure_keeps_selection
        (env : Env) (res : FetchOutcome) (s : AppState)
        (store : StoredUploads) (file : File) :
  recordedAudioFile s = Some file →
  let out := uploadInitialTrainingAudio env res s store in
  (upload_rejected res →
   statusMessage out.1.2 = upload_failed_message
   ∧ out.2 = store
   ∧ recordedAudioFile out.1.2 = Some file)
  ∧ (res = Responded 500 true → 
     statusMessage out.1.2 = upload_failed_message
     ∧ out.2 = store
     ∧ recordedAudioFile out.1.2 = Some file)
  ∧ (out.2 ≠ store ∨ recordedAudioFile out.1.2 ≠ Some file →
     ∃ status body, res = Responded status body ∧ ok status = true)
  ∧ (∀ status log,
       res = Responded status true → ok status = true →
       store = Stored log →
       out.2 = Stored (initial_record env file :: log)
       ∧ recordedAudioFile out.1.2 = None)
  ∧ (∀ status,
       res = Responded status true → ok status = true →
       store = Absent →
       out.2 = Stored [initial_record env file]
       ∧ recordedAudioFile out.1.2 = None).
Proof.
  intros Hfile out. unfold out, uploadInitialTrainingAudio.
  rewrite Hfile. split_and!.
  - destruct res as [status body|]; simpl; [|done].
    by intros ->.
  - by intros ->.
  - destruct res as [status body|]; simpl.
    + destruct (ok status) eqn:Hok; simpl.
      * intros _. by exists status, body.
      * intros [? | ?]; done.
    + intros [? | ?]; done.
  - intros status log -> Hok ->. by rewrite Hok.
  - intros status -> Hok ->. by rewrite Hok.
Qed.

Transparent lit.

End TrainingFacts.

(** ** Correction playback *)

Section PlaybackFacts.

Import Playback.

Lemma silence_self (src : nat) : silence src [src] = [].
Proof. unfold silence. simpl. by rewrite Nat.eqb_refl. Qed.

Lemma tracked_at_most_one p : tracked p → at_most_one_source p.
Proof.
  unfold tracked, at_most_one_source. intros ->.
  destruct (spokenCorrectionSource p); simpl; lia.
Qed.


Lemma onended_tracked src p :
  tracked p → spokenCorrectionSource p = Some src → tracked (onended src p).
Proof.
  unfold tracked, onended. intros Hp Href. simpl.
  by rewrite Hp, Href, silence_self.
Qed.

(** C6, evaluated on the code.  Two calls of [playSpokenCorrection]
    of which the second starts while the first is still waiting for
    [decodeAudioData]: both pass the stop-the-previous step before
    either has created its source, then each creates and starts one.
    Two sources sound at once, the ref holds only the second, and
    that is so from any state, the idle one included. *)
Theorem overlapping_calls_two_sources (p : Player) :
  ∃ p',
    exec [Call; Call; Decoded true; Decoded true] p = Some p'
    ∧ spokenCorrectionSource p' = Some (S (created p))
    ∧ (∃ rest, sounding p' = S (created p) :: created p :: rest)
    ∧ ¬ at_most_one_source p'
    ∧ (p = idle_player → sounding p' = [1; 0]%nat).
Proof.
  eexists. split; [reflexivity|].
  unfold at_most_one_source. simpl. split_and!.
  - done.
  - by eexists.
  - lia.
  - by intros ->.
Qed.

End PlaybackFacts.

(** ** Capture session *)

Section CaptureFacts.

Import Playback Capture.

Lemma alter_last {A} (f : A → A) (l : list A) (x : A) :
  alter f (length l) (l ++ [x]) = l ++ [f x].
Proof.
  rewrite alter_app_r_alt by lia. by rewrite Nat.sub_diag.
Qed.

(** C2, evaluated on the code.  A session that starts from a state
    that is not listening and has no socket, gets the microphone,
    connects, and is then stopped: the recorder is inactive, the
    device tracks are stopped, the frame request is cancelled, the
    socket is closing and the ref is cleared -- but the interval
    that [startListening] registered is still live, because the
    closure that would clear it is the return value of the click
    handler, which nobody calls. *)
Theorem stop_leaves_flush_interval (r : Runtime) :
  listening r = false →
  ws r = None →
  let flush := S (S (next_handle r)) in
  let r' := session r in
  snd (startListening true r) = Some flush
  ∧ listening r' = false
  ∧ mediaRecorder r' = Some Inactive
  ∧ audioStream r' = Some false
  ∧ frames r' = ({[S (next_handle r)]} ∪ frames r) ∖ {[S (next_handle r)]}
  ∧ ws r' = None
  ∧ sockets r' = sockets r ++ [CLOSING]
  ∧ intervals r' = {[flush]} ∪ intervals r
  ∧ flush ∈ intervals r'
  ∧ ¬ released r'.
Proof.
  intros Hidle Hws flush r'.
  assert (Hr' : r' = socket_effect (stopListening
                  (socket_opened (socket_effect
                     (fst (startListening true r)))))).
  { unfold r', session. unfold onClick at 2. rewrite Hidle.
    unfold onClick. by unfold startListening; rewrite Hidle. }
  assert (Hivl : intervals r' = {[flush]} ∪ intervals r).
  { rewrite Hr'. unfold startListening. rewrite Hidle. reflexivity. }
  split_and!; try done.
  - unfold startListening. by rewrite Hidle.
  - rewrite Hr'. unfold startListening. rewrite Hidle. reflexivity.
  - rewrite Hr'. unfold startListening. rewrite Hidle. reflexivity.
  - rewrite Hr'. unfold startListening. rewrite Hidle. reflexivity.
  - rewrite Hr'. unfold startListening. rewrite Hidle. reflexivity.
  - rewrite Hr'. unfold startListening. rewrite Hidle. reflexivity.
  - rewrite Hr'. unfold startListening. rewrite Hidle.
    unfold socket_effect, socket_opened, stopListening, listening. simpl.
    rewrite Hws. simpl. unfold close_socket.
    by rewrite !alter_last.
  - rewrite Hivl. by apply elem_of_union_l, elem_of_singleton.
  - intros (_ & Hnone & _).
    apply (not_elem_of_empty (C:=gset nat) flush).
    rewrite <- Hnone, Hivl. by apply elem_of_union_l, elem_of_singleton.
Qed.

End CaptureFacts.

(** * The scenarios, run through the theorems *)

Section Scenarios.

Import Session Queue Training Playback Capture Scenario.

(** The second step of the first scenario: after the verse, a
    [diff_update] with an [equal] entry at 0 and a [replacement_ref]
    entry at 1 highlights index 1 only. *)
Lemma diff_update_highlights_witness :
  highlightedWords
    (run atob_id
       (diff_updates [(closure_spoken, env_c, diff_scenario)]) initial)
  = [1%Z].
Proof.
  exact (proj1 (diff_update_highlights atob_id [] closure_spoken env_c
                  diff_scenario initial)).
Defined.


(** Verifying A as correct in the queue A, B. *)
Lemma verification_frame_witness :
  mistakeQueue queue_AB !! 0%nat = Some recA
  ∧ mistakeQueue queue_AB !! 1%nat = Some recB
  ∧ id recB ≠ id recA
  ∧ (∃ m', mistakeQueue (handleMistakeVerification (id recA) Correct queue_AB)
             !! 0%nat = Some m'
           ∧ verified m' = Correct ∧ synced m' = false ∧ same_payload recA m')
  ∧ mistakeQueue (handleMistakeVerification (id recA) Correct queue_AB)
      !! 1%nat = Some recB.
Proof.
  assert (Hne : id recB ≠ id recA) by (vm_compute; discriminate).
  destruct (verification_frame (id recA) Correct queue_AB)
    as (_ & _ & Hsame & Hother & _).
  split_and!; [reflexivity | reflexivity | exact Hne | |].
  - exact (Hsame 0%nat recA eq_refl eq_refl).
  - exact (Hother 1%nat recB eq_refl Hne).
Defined.

(** A sync of the queue A, B that is answered with status 500: the
    request carried A, and the state is what it was. *)
Lemma sync_selection_and_failure_witness :
  failed (Responded 500 false)
  ∧ unsynced_of (mistakeQueue queue_AB) ≠ []
  ∧ fst (syncMistakes (Responded 500 false) (λ s, s) queue_AB)
    = Some {| mistakes := [strip_synced recA] |}
  ∧ snd (syncMistakes (Responded 500 false) (λ s, s) queue_AB) = queue_AB.
Proof.
  assert (Hfail : failed (Responded 500 false)) by reflexivity.
  assert (Hsome : unsynced_of (mistakeQueue queue_AB) ≠ [])
    by (vm_compute; discriminate).
  destruct (sync_selection_and_failure (Responded 500 false) (λ s, s)
              queue_AB) as (_ & _ & Hreq & _ & _ & Hkeep).
  split_and!; [exact Hfail | exact Hsome | exact (Hreq Hsome) |].
  exact (Hkeep Hfail Hsome).
Defined.

(** The second scenario, with B verified while the request is in
    flight: A, which was submitted, becomes synced; B, which was not,
    keeps the flag the verification reset. *)
Lemma sync_success_marks_captured_ids_witness :
  ok 200 = true
  ∧ unsynced_of (mistakeQueue queue_AB) ≠ []
  ∧ mistakeQueue
      (snd (syncMistakes (Responded 200 true)
              (handleMistakeVerification (id recB) Correct) queue_AB))
      !! 0%nat = Some (with_synced recA)
  ∧ mistakeQueue
      (snd (syncMistakes (Responded 200 true)
              (handleMistakeVerification (id recB) Correct) queue_AB))
      !! 1%nat = Some (with_verification Correct recB).
Proof.
  assert (Hsome : unsynced_of (mistakeQueue queue_AB) ≠ [])
    by (vm_compute; discriminate).
  destruct (sync_success_marks_captured_ids 200 true
              (handleMistakeVerification (id recB) Correct) queue_AB
              eq_refl Hsome) as (_ & Hin & Hout & _).
  split_and!; [reflexivity | exact Hsome | |].
  - apply (Hin 0%nat recA); [reflexivity|].
    apply (bool_decide_unpack _). vm_compute. exact I.
  - apply (Hout 1%nat (with_verification Correct recB)); [reflexivity|].
    apply (bool_decide_unpack _). vm_compute. exact I.
Defined.

(** C1, evaluated on the code.  A is submitted with status [pending];
    while the request is in flight the user verifies A, which sets its
    status and resets its sync flag; the success handler then marks A
    synced, although the status the server received is the old one. *)
Lemma sync_marks_record_verified_in_flight :
  let during := handleMistakeVerification (id recA) Correct in
  let out := syncMistakes (Responded 200 true) during queue_AB in
  fst out = Some {| mistakes := [strip_synced recA] |}
  ∧ w_verified (strip_synced recA) = Pending
  ∧ mistakeQueue (during queue_AB) = [with_verification Correct recA; recB]
  ∧ synced (with_verification Correct recA) = false
  ∧ mistakeQueue (snd out)
    = [with_synced (with_verification Correct recA); recB]
  ∧ ¬ (∀ m, m ∈ mistakeQueue (snd out) → id m = id recA → synced m = false).
Proof.
  intros during out.
  assert (Hq : mistakeQueue (snd out)
               = [with_synced (with_verification Correct recA); recB])
    by (vm_compute; reflexivity).
  split_and!; try (vm_compute; reflexivity).
  intros Hall.
  specialize (Hall (with_synced (with_verification Correct recA))).
  rewrite Hq in Hall.
  by specialize (Hall (list_elem_of_here _ _) eq_refl).
Qed.

(** After that run the queue has no unsynced record: the next sync
    attempt issues no request, and the status the user gave to A is
    not delivered. *)
Lemma verified_in_flight_not_redelivered :
  let during := handleMistakeVerification (id recA) Correct in
  let out := syncMistakes (Responded 200 true) during queue_AB in
  verified <$> mistakeQueue (snd out) = [Correct; Incorrect]
  ∧ syncMistakes_request (mistakeQueue (snd out)) = None.
Proof. split; vm_compute; reflexivity. Qed.


(** The third scenario: the upload of the selected file is answered
    with status 500. *)
Lemma upload_failure_keeps_selection_witness :
  let s := setRecordedAudioFile (Some wav_file) initial in
  let out := uploadInitialTrainingAudio env_c (Responded 500 true) s Absent in
  recordedAudioFile s = Some wav_file
  ∧ upload_rejected (Responded 500 true)
  ∧ statusMessage out.1.2 = upload_failed_message
  ∧ out.2 = Absent
  ∧ recordedAudioFile out.1.2 = Some wav_file.
Proof.
  intros s out.
  destruct (upload_failure_keeps_selection env_c (Responded 500 true) s
              Absent wav_file eq_refl) as (Hrej & _).
  split_and!; [reflexivity | reflexivity | apply Hrej | apply Hrej
               | apply Hrej]; reflexivity.
Defined.

(** Selecting a WAV file stores it; selecting a PDF clears the
    selection and shows the error. *)
Lemma file_selection_accepts_audio_witness :
  recordedAudioFile (handleAudioFileUpload (Some wav_file) initial)
  = Some wav_file
  ∧ recordedAudioFile
      (handleAudioFileUpload (Some pdf_file)
         (handleAudioFileUpload (Some wav_file) initial)) = None
  ∧ statusMessage
      (handleAudioFileUpload (Some pdf_file)
         (handleAudioFileUpload (Some wav_file) initial))
    = invalid_file_message.
Proof.
  destruct (file_selection_accepts_audio (Some wav_file) initial)
    as (Hacc & _).
  destruct (file_selection_accepts_audio (Some pdf_file)
              (handleAudioFileUpload (Some wav_file) initial))
    as (_ & Hnone & Hmsg & _).
  assert (Hcleared :
            recordedAudioFile
              (handleAudioFileUpload (Some pdf_file)
                 (handleAudioFileUpload (Some wav_file) initial)) = None).
  { apply Hnone. right. exists pdf_file. split; reflexivity. }
  split_and!; [| exact Hcleared | exact (Hmsg Hcleared)].
  apply Hacc. split; [reflexivity|]. exists (lit "wav"). reflexivity.
Defined.

(** Two overlapping calls from the idle player. *)
Lemma overlapping_calls_two_sources_witness :
  ∃ p', exec [Call; Call; Decoded true; Decoded true] idle_player = Some p'
        ∧ sounding p' = [1; 0]%nat.
Proof.
  destruct (overlapping_calls_two_sources idle_player)
    as (p' & Hexec & _ & _ & _ & Hidle).
  exists p'. split; [exact Hexec | exact (Hidle eq_refl)].
Defined.

(** A first session from the idle state: handle 1 is the frame
    request, handle 2 the flush interval, which outlives the stop. *)
Lemma stop_leaves_flush_interval_witness :
  listening idle_runtime = false
  ∧ ws idle_runtime = None
  ∧ 2%nat ∈ intervals (session idle_runtime)
  ∧ ¬ released (session idle_runtime).
Proof.
  destruct (stop_leaves_flush_interval idle_runtime eq_refl eq_refl)
    as (_ & _ & _ & _ & _ & _ & _ & _ & Hflush & Hnot).
  split_and!; [reflexivity | reflexivity | exact Hflush | exact Hnot].
Defined.

End Scenarios.

(** * Further properties of the queue *)

(* The set solver clears hypotheses by name and says so when one is
   already gone. *)
Set Warnings "-clear-no-such-hyp".

Section QueueCompositions.

Import Session Queue Scenario.

Lemma unsynced_of_nil_iff (q : list Mistake) :
  unsynced_of q = [] ↔ ∀ m, m ∈ q → synced m = true.
Proof.
  split.
  - intros Hnil m Hm. destruct (synced m) eqn:Hs; [done|].
    assert (Hin : m ∈ unsynced_of q) by by apply elem_of_unsynced_of.
    rewrite Hnil in Hin. by apply elem_of_nil in Hin.
  - intros Hall. destruct (unsynced_of q) as [|m l] eqn:Hu; [done|].
    assert (Hin : m ∈ unsynced_of q) by (rewrite Hu; left).
    apply elem_of_unsynced_of in Hin as [Hin Hs].
    rewrite (Hall m Hin) in Hs. done.
Qed.

Lemma syncMistakes_request_None (q : list Mistake) :
  syncMistakes_request q = None ↔ unsynced_of q = [].
Proof.
  unfold syncMistakes_request. by destruct (unsynced_of q).
Qed.

Lemma syncMistakes_request_Some (q : list Mistake) :
  unsynced_of q ≠ [] →
  syncMistakes_request q
  = Some {| mistakes := strip_synced <$> unsynced_of q |}.
Proof.
  intros Hsome. unfold syncMistakes_request.
  by destruct (unsynced_of q).
Qed.

Lemma elem_of_not_nil {A} (x : A) (l : list A) : x ∈ l → l ≠ [].
Proof. intros Hx ->. by apply elem_of_nil in Hx. Qed.

Lemma settle_success_queue captured status body s :
  ok status = true →
  mistakeQueue (syncMistakes_settle captured (Responded status body) s)
  = mark_synced (syncedIds (unsynced_of captured)) (mistakeQueue s).
Proof. intros Hok. unfold syncMistakes_settle. by rewrite Hok. Qed.

(** What a sync attempt that issues a request leaves behind. *)
Lemma syncMistakes_issued res during s :
  unsynced_of (mistakeQueue s) ≠ [] →
  snd (syncMistakes res during s)
  = syncMistakes_settle (mistakeQueue s) res (during s).
Proof.
  intros Hsome. unfold syncMistakes, syncMistakes_request.
  by destruct (unsynced_of (mistakeQueue s)).
Qed.

(** X1.  A successful sync during which nothing else happens leaves every
    record synced, so that the attempt after it issues no request. *)
Theorem sync_success_settles_queue (status : Z) (body : bool) (s : AppState) :
  ok status = true →
  let s' := snd (syncMistakes (Responded status body) (λ x, x) s) in
  (∀ m, m ∈ mistakeQueue s' → synced m = true)
  ∧ syncMistakes_request (mistakeQueue s') = None
  ∧ ∀ res during, syncMistakes res during s' = (None, s').
Proof.
  intros Hok s'.
  assert (Hall : ∀ m, m ∈ mistakeQueue s' → synced m = true).
  { destruct (unsynced_of (mistakeQueue s)) as [|u us] eqn:Hu.
    - assert (s' = s) as ->.
      { unfold s', syncMistakes, syncMistakes_request. by rewrite Hu. }
      by apply unsynced_of_nil_iff.
    - unfold s'. rewrite syncMistakes_issued by by rewrite Hu.
      unfold syncMistakes_settle. rewrite Hok. simpl.
      intros m' Hm'. unfold mark_synced in Hm'.
      apply list_elem_of_fmap in Hm' as (m & -> & Hm).
      destruct (decide (id m ∈ _)) as [Hin|Hout]; [done|].
      destruct (synced m) eqn:Hs; [done|]. exfalso. apply Hout.
      apply elem_of_syncedIds, list_elem_of_fmap. exists m.
      split; [done|]. by apply elem_of_unsynced_of. }
  assert (Hnone : syncMistakes_request (mistakeQueue s') = None).
  { by apply syncMistakes_request_None, unsynced_of_nil_iff. }
  split_and!; [done | done |].
  intros res during. unfold syncMistakes. by rewrite Hnone.
Qed.

(** Socket messages keep the records of the queue. *)
Lemma run_keeps_records atob evs : ∀ s m,
  m ∈ mistakeQueue s → m ∈ mistakeQueue (run atob evs s).
Proof.
  induction evs as [|[[cl env] msg] evs IH]; intros s m Hm; [done|].
  simpl. apply IH.
  destruct msg as [sura_name text number|diff|mm|]; simpl; try done.
  by right.
Qed.

(** X2.  A sync attempt that starts after a verification, when nothing
    but socket messages was handled in between -- in particular no
    response of a sync request that was in flight at the time --
    issues a request, and that request carries the verified record
    with its new status; with nothing at all in between, every entry
    of the request with that id has the new status. *)
Theorem verification_is_redelivered
        (atob : jsstring → option jsstring)
        (evs : list (Closure * Env * Message))
        (id0 : jsstring) (status : Verification) (s : AppState) (m : Mistake)
        (res : FetchOutcome) (during : AppState → AppState) :
  m ∈ mistakeQueue s → id m = id0 →
  let s1 := run atob evs (handleMistakeVerification id0 status s) in
  ∃ payload,
    fst (syncMistakes res during s1) = Some payload
    ∧ strip_synced (with_verification status m) ∈ mistakes payload
    ∧ (evs = [] →
       ∀ w, w ∈ mistakes payload → w_id w = id0 → w_verified w = status).
Proof.
  intros Hm Hid s1.
  set (q' := mistakeQueue (handleMistakeVerification id0 status s)).
  assert (Hq' : q' = (λ m, if decide (id m = id0)
                           then with_verification status m else m)
                       <$> mistakeQueue s) by done.
  assert (Hin : with_verification status m ∈ unsynced_of (mistakeQueue s1)).
  { apply elem_of_unsynced_of. split; [|done].
    apply run_keeps_records. fold q'.
    rewrite Hq'. apply list_elem_of_fmap. exists m.
    by rewrite decide_True. }
  unfold syncMistakes.
  rewrite syncMistakes_request_Some by by eapply elem_of_not_nil.
  eexists. split; [done|]. simpl. split.
  - by apply list_elem_of_fmap_2.
  - intros -> w Hw Hwid. simpl in s1.
    apply list_elem_of_fmap in Hw as (m' & -> & Hm').
    apply elem_of_unsynced_of in Hm' as [Hm' _].
    unfold s1 in Hm'. fold q' in Hm'.
    rewrite Hq' in Hm'. apply list_elem_of_fmap in Hm' as (m0 & -> & _).
    destruct (decide (id m0 = id0)); [done|]. simpl in Hwid. done.
Qed.

(** X3.  Whatever its outcome, a sync attempt changes nothing of a record
    but its sync flag -- ids, order, statuses and the other fields are
    those of the queue when the response is handled -- and it never
    takes a flag back from [true] to [false]. *)
Theorem sync_changes_flags_only
        (res : FetchOutcome) (during : AppState → AppState) (s : AppState) :
  unsynced_of (mistakeQueue s) ≠ [] →
  let s' := snd (syncMistakes res during s) in
  strip_synced <$> mistakeQueue s' = strip_synced <$> mistakeQueue (during s)
  ∧ (∀ (i : nat) m m',
       mistakeQueue (during s) !! i = Some m →
       mistakeQueue s' !! i = Some m' →
       synced m = true → synced m' = true)
  ∧ currentVerseWords s' = currentVerseWords (during s)
  ∧ highlightedWords s' = highlightedWords (during s).
Proof.
  intros Hsome s'. unfold s'. rewrite syncMistakes_issued by done.
  unfold syncMistakes_settle.
  assert (Hsame : ∀ s0 : AppState,
            strip_synced <$> mistakeQueue s0 = strip_synced <$> mistakeQueue s0
            ∧ (∀ (i : nat) m m',
                 mistakeQueue s0 !! i = Some m →
                 mistakeQueue s0 !! i = Some m' →
                 synced m = true → synced m' = true)
            ∧ currentVerseWords s0 = currentVerseWords s0
            ∧ highlightedWords s0 = highlightedWords s0).
  { intros s0. split_and!; try done. intros i m m' Hm Hm'. congruence. }
  destruct res as [status body|]; [|apply Hsame].
  destruct (ok status); [|apply Hsame]. simpl. split_and!; try done.
  - unfold mark_synced. rewrite <- list_fmap_compose.
    apply list_fmap_ext. intros i m _. simpl.
    by destruct (decide (id m ∈ _)).
  - intros i m m' Hm. rewrite mark_synced_lookup, Hm. simpl.
    intros [= <-] Hs. by destruct (decide (id m ∈ _)).
Qed.

(** X4.  A mistake that arrives while a sync request is in flight is in
    front of the queue, unsynced, after the success response, when its
    id is not one of the submitted ids; the next attempt submits it. *)
Theorem mistake_in_flight_stays_unsynced
        (atob : jsstring → option jsstring) (cl : Closure) (env : Env)
        (msg : MistakeMsg) (status : Z) (body : bool) (s : AppState) :
  ok status = true →
  unsynced_of (mistakeQueue s) ≠ [] →
  randomUUID env ∉ (id <$> unsynced_of (mistakeQueue s)) →
  let during := λ x, fst (onmessage atob cl env (MistakeEvent msg) x) in
  let s' := snd (syncMistakes (Responded status body) during s) in
  mistakeQueue s' !! 0%nat = Some (newMistake cl env msg)
  ∧ synced (newMistake cl env msg) = false
  ∧ ∃ payload, syncMistakes_request (mistakeQueue s') = Some payload
               ∧ strip_synced (newMistake cl env msg) ∈ mistakes payload.
Proof.
  intros Hok Hsome Hfresh during s'.
  assert (H0 : mistakeQueue s' !! 0%nat = Some (newMistake cl env msg)).
  { unfold s'. rewrite syncMistakes_issued by done.
    rewrite settle_success_queue by done.
    rewrite mark_synced_lookup. simpl.
    rewrite decide_False; [done|]. by rewrite elem_of_syncedIds. }
  split_and!; [done | done |].
  assert (Hin : newMistake cl env msg ∈ unsynced_of (mistakeQueue s')).
  { apply elem_of_unsynced_of. split; [|done].
    apply list_elem_of_lookup. by exists 0%nat. }
  rewrite syncMistakes_request_Some by by eapply elem_of_not_nil.
  eexists. split; [done|]. simpl. by apply list_elem_of_fmap_2.
Qed.

End QueueCompositions.

Section QueueEdges.

Import Session Queue.

(** X5.  Verifying an id that no record has changes no record. *)
Theorem verification_unknown_id
        (id0 : jsstring) (status : Verification) (s : AppState) :
  id0 ∉ (id <$> mistakeQueue s) →
  mistakeQueue (handleMistakeVerification id0 status s) = mistakeQueue s.
Proof.
  intros Hout. simpl. rewrite <- (list_fmap_id (mistakeQueue s)) at 2.
  apply list_fmap_ext. intros i m Hm. simpl.
  rewrite decide_False; [done|]. intros <-. apply Hout.
  apply list_elem_of_fmap. exists m. split; [done|].
  apply list_elem_of_lookup. by exists i.
Qed.

(** X6.  Of two verifications of the same id the second one wins: the state
    is the one the second alone would give.  In particular repeating a
    verification changes nothing. *)
Theorem verification_last_wins
        (id0 : jsstring) (first second : Verification) (s : AppState) :
  handleMistakeVerification id0 second
    (handleMistakeVerification id0 first s)
  = handleMistakeVerification id0 second s.
Proof.
  unfold handleMistakeVerification, setStatusMessage, setMistakeQueue.
  simpl. f_equal. rewrite <- list_fmap_compose.
  apply list_fmap_ext. intros i m _. simpl.
  destruct (decide (id m = id0)) as [Hid|Hne]; simpl.
  - by rewrite decide_True.
  - by rewrite decide_False.
Qed.

(** X7.  No run of socket messages removes, reorders or alters a record of
    the queue: the queue after the run is the old one with one new
    record per [mistake_event] in front, each pending and unsynced. *)
Theorem messages_only_prepend
        (atob : jsstring → option jsstring)
        (evs : list (Closure * Env * Message)) (s : AppState) :
  ∃ news,
    mistakeQueue (run atob evs s) = news ++ mistakeQueue s
    ∧ length news
      = length (List.filter
                  (λ e, match e.2 with MistakeEvent _ => true | _ => false end)
                  evs)
    ∧ Forall (λ m, verified m = Pending ∧ synced m = false) news.
Proof.
  revert s. induction evs as [|[[cl env] msg] evs IH]; intros s.
  - exists []. by split_and!.
  - simpl. destruct (IH (fst (onmessage atob cl env msg s)))
      as (news & Hq & Hlen & Hall).
    destruct msg as [sura_name text number|diff|m|]; simpl in *.
    + exists news. by split_and!.
    + exists news. by split_and!.
    + exists (news ++ [newMistake cl env m]). split_and!.
      * by rewrite Hq, <- app_assoc.
      * rewrite length_app, Hlen. simpl. lia.
      * apply Forall_app. split; [done|]. by constructor.
    + exists news. by split_and!.
Qed.

End QueueEdges.

(** * Further properties of the word split *)

Section SplitEdges.

(** X8.  A text has no word exactly when it has nothing but whitespace,
    the empty text included. *)
Theorem words_nil_iff (s : jsstring) :
  words s = [] ↔ Forall (λ c, is_ws c = true) s.
Proof.
  split.
  - intros Hnil. pose proof (words_concat s) as Hc.
    rewrite Hnil in Hc. simpl in Hc.
    induction s as [|c s IH]; [constructor|].
    simpl in Hc. destruct (is_ws c) eqn:Hws; simpl in Hc; [|done].
    constructor; [done|]. apply IH; [|done].
    change (c :: s) with ([] ++ c :: s) in Hnil.
    rewrite words_app_ws in Hnil by done. by rewrite words_nil in Hnil.
  - induction 1 as [|c s Hc _ IH]; [done|].
    change (c :: s) with ([] ++ c :: s).
    by rewrite words_app_ws, words_nil.
Qed.

(** X9.  Words written one after the other, each followed by a whitespace
    character, split back into those words; whitespace in front
    changes nothing. *)
Theorem words_of_separated (ws : list jsstring) (sep lead : N) :
  is_ws sep = true → is_ws lead = true →
  Forall (λ w, w ≠ [] ∧ Forall (λ c, is_ws c = false) w) ws →
  words (concat ((λ w, w ++ [sep]) <$> ws)) = ws
  ∧ words (lead :: concat ((λ w, w ++ [sep]) <$> ws)) = ws.
Proof.
  intros Hsep Hlead Hws.
  assert (Hmain : words (concat ((λ w, w ++ [sep]) <$> ws)) = ws).
  { induction Hws as [|w ws [Hne Hw] _ IH]; [done|].
    rewrite fmap_cons. cbn [concat]. rewrite <- app_assoc.
    change ([sep] ++ ?l) with (sep :: l).
    rewrite words_app_ws by done. by rewrite words_run, IH. }
  split; [done|].
  change (lead :: ?l) with ([] ++ lead :: l).
  by rewrite words_app_ws, words_nil.
Qed.

End SplitEdges.

(** * Further properties of playback and voice activity *)

Section PlaybackRunsFacts.

Import Playback PlaybackRuns Capture Monitor.

Lemma silence_idem (src : nat) (l : list nat) :
  silence src (silence src l) = silence src l.
Proof.
  unfold silence. induction l as [|x l IH]; [done|]. simpl.
  destruct (negb (x =? src)%nat) eqn:Hx; simpl; [rewrite Hx|]; by rewrite ?IH.
Qed.

(** The ended event of the source that a call has just stopped, when
    it is handled while that call waits for its decode, changes
    nothing. *)
Lemma ended_during_decode_harmless (prev : nat) (p : Player) :
  spokenCorrectionSource p = Some prev →
  onended prev (playSpokenCorrection_enter p) = playSpokenCorrection_enter p.
Proof.
  intros Href. unfold onended, playSpokenCorrection_enter. rewrite Href.
  simpl. by rewrite silence_idem.
Qed.

(** What a run without overlap keeps: the ref tracks the sounding
    source, at most one call waits for its decode, and while one does
    the ref is empty. *)
Lemma step_orderly e p p' :
  tracked p →
  (awaiting p ≤ 1)%nat →
  (awaiting p = 1%nat → spokenCorrectionSource p = None) →
  orderly e p →
  step e p = Some p' →
  tracked p'
  ∧ (awaiting p' ≤ 1)%nat
  ∧ (awaiting p' = 1%nat → spokenCorrectionSource p' = None).
Proof.
  intros Hp Hle Hwait He Hstep. destruct e as [|decoded|src]; simpl in *.
  - injection Hstep as <-. unfold tracked in *. simpl.
    split_and!; [|lia|done].
    rewrite Hp. destruct (spokenCorrectionSource p) as [prev|]; [|done].
    apply silence_self.
  - destruct (awaiting p) as [|k] eqn:Hk; [done|].
    injection Hstep as <-. assert (k = 0%nat) as -> by lia.
    specialize (Hwait eq_refl). unfold tracked in *.
    rewrite Hwait in Hp. simpl in Hp.
    destruct decoded; simpl; rewrite ?Hp, ?Hwait, ?Hk; simpl;
      split_and!; try done; lia.
  - destruct (src <? created p)%nat; [|done]. injection Hstep as <-.
    unfold tracked in *. simpl. split_and!; [|done|done].
    destruct He as [Hnone|Href].
    + by rewrite Hp, Hnone.
    + by rewrite Hp, Href, silence_self.
Qed.

Lemma exec_orderly es : ∀ p,
  tracked p →
  (awaiting p ≤ 1)%nat →
  (awaiting p = 1%nat → spokenCorrectionSource p = None) →
  all_orderly es p →
  ∀ n : nat, ∃ p', exec (take n es) p = Some p' ∧ tracked p'.
Proof.
  induction es as [|e es IH]; intros p Hp Hle Hwait Hes n.
  - exists p. by destruct n.
  - destruct n as [|n]; [by exists p|]. simpl in *.
    destruct Hes as [He Hes].
    destruct (step e p) as [p1|] eqn:Hstep; [|done].
    destruct (step_orderly _ _ _ Hp Hle Hwait He Hstep) as (? & ? & ?).
    by apply IH.
Qed.

(** X10.  As long as calls of [playSpokenCorrection] do not overlap and
    the ended event of every source, stopped ones included, is handled
    while the ref holds that source or nothing (so before the next
    source is stored), the run goes through and at most one source
    sounds after every step, the one the ref holds. *)
Theorem serial_playback_one_source (es : list Event) (p : Player) :
  tracked p →
  awaiting p = 0%nat →
  all_orderly es p →
  ∀ n : nat,
    ∃ p', exec (take n es) p = Some p'
          ∧ tracked p'
          ∧ at_most_one_source p'.
Proof.
  intros Hp Hnone Hes n.
  destruct (exec_orderly es p Hp) with (n := n) as (p' & Hrun & Hp');
    [lia | intros; lia | done |].
  exists p'. split_and!; [done | done | by apply tracked_at_most_one].
Qed.

(** The condition on the ended events is needed: when the event of a
    source that was replaced is handled after the next source is in
    the ref, the handler empties the ref, and the call after that
    stops nothing. *)
Lemma late_ended_loses_track :
  sounding <$> exec [Call; Decoded true; Call; Decoded true; Ended 0;
                     Call; Decoded true] idle_player
  = Some [2; 1]%nat.
Proof. reflexivity. Qed.


Lemma listening_checkSilence playing h dataArray r r' :
  checkSilence playing h dataArray r = Some r' →
  listening r' = listening r
  ∧ intervals r' = intervals r
  ∧ mediaRecorder r' = mediaRecorder r
  ∧ audioStream r' = audioStream r
  ∧ animationFrameId r' = Some (S (next_handle r))
  ∧ frames r' = {[S (next_handle r)]} ∪ (frames r ∖ {[h]})
  ∧ next_handle r' = S (next_handle r).
Proof.
  unfold checkSilence. destruct (decide (h ∈ frames r)); [|done].
  intros [= <-]. unfold listening. simpl. split_and!; try done.
  destruct (playing && voice_detected dataArray); [|done].
  by destruct (spokenCorrectionSource (player r)).
Qed.

Lemma frames_run_loop playing F datas : ∀ r,
  loop_pending F r →
  ∃ r', frames_run playing datas r = Some r'
        ∧ loop_pending F r'
        ∧ listening r' = listening r
        ∧ intervals r' = intervals r
        ∧ mediaRecorder r' = mediaRecorder r
        ∧ audioStream r' = audioStream r.
Proof.
  induction datas as [|dataArray datas IH]; intros r Hloop; simpl.
  - by exists r.
  - destruct Hloop as (h & Hid & Hfr & HhF & Hbound).
    unfold frame. rewrite Hid.
    destruct (checkSilence playing h dataArray r) as [r1|] eqn:Hstep.
    2:{ unfold checkSilence in Hstep. rewrite decide_True in Hstep; [done|].
        rewrite Hfr. set_solver. }
    destruct (listening_checkSilence _ _ _ _ _ Hstep)
      as (Hl & Hi & Hm & Ha & Hid1 & Hfr1 & Hnext).
    destruct (IH r1) as (r' & Hrun & Hloop' & Hl' & Hi' & Hm' & Ha').
    { exists (S (next_handle r)). split_and!; [done | | |].
      - rewrite Hfr1, Hfr. set_solver.
      - intros Hin. apply Hbound in Hin. lia.
      - intros x Hx. apply Hbound in Hx. lia. }
    exists r'. split_and!; congruence.
Qed.

(** X12.  The frame loop of a session that was started while no correction
    was playing never stops a correction, however loud the microphone:
    the function the loop calls tests the playing flag of the render
    in which Start was clicked. *)
Theorem voice_activity_never_interrupts
        (r : Runtime) (datas : list (list N)) :
  listening r = false →
  isSpokenCorrectionPlaying (app (player r)) = false →
  let playing := isSpokenCorrectionPlaying (app (player r)) in
  let r1 := play true (onClick true r) in
  ∃ r2, frames_run playing datas r1 = Some r2
        ∧ player r2 = player r1
        ∧ spokenCorrectionSource (player r2) = Some (created (player r))
        ∧ created (player r) ∈ sounding (player r2).
Proof.
  intros Hidle Hflag playing r1. unfold playing. rewrite Hflag.
  assert (Hgen : ∀ datas r0,
            (∃ h, animationFrameId r0 = Some h ∧ h ∈ frames r0) →
            ∃ r2, frames_run false datas r0 = Some r2
                  ∧ player r2 = player r0).
  { clear. induction datas as [|d datas IH]; intros r0 (h & Hid & Hin).
    - by exists r0.
    - simpl. unfold frame. rewrite Hid. unfold checkSilence.
      rewrite decide_True by done. simpl.
      match goal with
      | |- ∃ r2, frames_run false datas ?r1 = Some r2 ∧ _ =>
          destruct (IH r1) as (r2 & Hrun & Hp)
      end.
      + exists (S (next_handle r0)). split; [done|]. simpl. set_solver.
      + exists r2. split; [done|]. by rewrite Hp. }
  destruct (Hgen datas r1) as (r2 & Hrun & Hplayer).
  { exists (S (next_handle r)). unfold r1, onClick, startListening.
    rewrite Hidle. simpl. split; [done | set_solver]. }
  exists r2. split; [done|]. split; [done|]. rewrite Hplayer.
  unfold r1, onClick, startListening. rewrite Hidle. simpl.
  split; [done | left].
Qed.

(** X13.  When the loop's function does see the playing flag set: a frame
    with a mean level above 10 stops the source of the ref, clears the
    ref and the flag; a frame at 10 or below leaves the player alone. *)
Theorem voice_activity_threshold
        (h : nat) (dataArray : list N) (r : Runtime) (src : nat) :
  h ∈ frames r →
  spokenCorrectionSource (player r) = Some src →
  ∃ r', checkSilence true h dataArray r = Some r'
        ∧ (10 * bufferLength < total dataArray →
           spokenCorrectionSource (player r') = None
           ∧ sounding (player r') = silence src (sounding (player r))
           ∧ isSpokenCorrectionPlaying (app (player r')) = false)
        ∧ (total dataArray ≤ 10 * bufferLength → player r' = player r).
Proof.
  intros Hh Href. unfold checkSilence. rewrite decide_True by done.
  eexists. split; [done|]. simpl. unfold voice_detected. split.
  - intros Hloud. apply N.ltb_lt in Hloud. rewrite Hloud, Href. done.
  - intros Hquiet. apply N.ltb_ge in Hquiet. by rewrite Hquiet.
Qed.

(** X14.  However many frames a session ran, Stop cancels its pending frame
    request: the frame requests are those from before the session.
    The flush interval is still there. *)
Theorem stop_cancels_frame_loop
        (playing : bool) (datas : list (list N)) (r : Runtime) :
  handles_bounded r →
  listening r = false →
  ∃ r2, frames_run playing datas (onClick true r) = Some r2
        ∧ frames (stopListening r2) = frames r
        ∧ intervals (stopListening r2)
          = {[S (S (next_handle r))]} ∪ intervals r
        ∧ audioStream (stopListening r2) = Some false
        ∧ mediaRecorder (stopListening r2) = Some Inactive.
Proof.
  intros [_ Hbound] Hidle.
  set (r1 := onClick true r).
  assert (Hr1 : r1 = fst (startListening true r)).
  { unfold r1, onClick. by rewrite Hidle. }
  assert (Hloop : loop_pending (frames r) r1).
  { exists (S (next_handle r)). rewrite Hr1. unfold startListening.
    rewrite Hidle. simpl. split_and!; try done.
    - intros Hin. apply Hbound in Hin. lia.
    - intros x Hx. apply Hbound in Hx. lia. }
  destruct (frames_run_loop playing (frames r) datas r1 Hloop)
    as (r2 & Hrun & (h & Hid & Hfr & HhF & _) & Hl & Hi & Hm & Ha).
  assert (Hl1 : listening r1 = true).
  { rewrite Hr1. unfold startListening. by rewrite Hidle. }
  exists r2. split; [done|].
  unfold stopListening. rewrite Hl, Hl1. simpl.
  rewrite Hid, Hfr, Hi, Hm, Ha, Hr1. unfold startListening.
  rewrite Hidle. simpl. split_and!; try done. set_solver.
Qed.

End PlaybackRunsFacts.

(** * Further properties of the capture session *)

Section CaptureEdges.

Import Session Playback Capture Monitor Channel.

Lemma listening_stopListening r : listening (stopListening r) = false.
Proof.
  unfold stopListening. destruct (listening r) eqn:Hl; simpl; [done|].
  done.
Qed.

(** X15.  Stop does nothing when the component is not listening, so that a
    second Stop changes nothing; Start does nothing, and returns
    nothing, while it is listening. *)
Theorem start_stop_guards (granted : bool) (r : Runtime) :
  stopListening (stopListening r) = stopListening r
  ∧ (listening r = false → stopListening r = r)
  ∧ (listening r = true → startListening granted r = (r, None)).
Proof.
  split_and!.
  - pose proof (listening_stopListening r) as Hl.
    unfold stopListening at 1. by rewrite Hl.
  - intros Hl. unfold stopListening. by rewrite Hl.
  - intros Hl. unfold startListening. by rewrite Hl.
Qed.

(** A refused microphone leaves nothing behind: no recorder, stream,
    frame request or interval is created, the component is not
    listening, the status line says so, and nothing is returned. *)
Theorem denied_microphone_acquires_nothing (r : Runtime) :
  listening r = false →
  let out := startListening false r in
  snd out = None
  ∧ listening (fst out) = false
  ∧ statusMessage (app (player (fst out)))
    = lit "Microphone access denied or error. Please allow microphone permissions."
  ∧ mediaRecorder (fst out) = mediaRecorder r
  ∧ audioStream (fst out) = audioStream r
  ∧ intervals (fst out) = intervals r
  ∧ frames (fst out) = frames r
  ∧ sockets (fst out) = sockets r
  ∧ (released r → released (fst out)).
Proof.
  intros Hl out. unfold out, startListening. rewrite Hl. simpl.
  by split_and!.
Qed.

Lemma session_unfold r :
  listening r = false →
  session r
  = socket_effect (stopListening (socket_opened (socket_effect
                     (fst (startListening true r))))).
Proof.
  intros Hl. unfold session. unfold onClick at 2. rewrite Hl.
  unfold onClick. by unfold startListening; rewrite Hl.
Qed.

Lemma session_step r :
  listening r = false → ws r = None → handles_bounded r →
  listening (session r) = false
  ∧ ws (session r) = None
  ∧ handles_bounded (session r)
  ∧ intervals (session r) = {[S (S (next_handle r))]} ∪ intervals r
  ∧ S (S (next_handle r)) ∉ intervals r.
Proof.
  intros Hl Hws [Hbi Hbf]. rewrite session_unfold by done.
  unfold startListening. rewrite Hl.
  split_and!; try reflexivity.
  - split; simpl.
    + intros h [->%elem_of_singleton | Hin]%elem_of_union; [lia|].
      apply Hbi in Hin. lia.
    + intros h [[->%elem_of_singleton | Hin]%elem_of_union _]%elem_of_difference;
        [lia|].
      apply Hbf in Hin. lia.
  - intros Hin. apply Hbi in Hin. lia.
Qed.

(** X16.  Every session leaves one more flush interval behind: after [n]
    sessions there are [n] live intervals more than before. *)
Theorem sessions_leak_intervals (n : nat) (r : Runtime) :
  listening r = false → ws r = None → handles_bounded r →
  size (intervals (Nat.iter n session r)) = (n + size (intervals r))%nat.
Proof.
  intros Hl Hws Hb.
  assert (Hinv : listening (Nat.iter n session r) = false
                 ∧ ws (Nat.iter n session r) = None
                 ∧ handles_bounded (Nat.iter n session r)
                 ∧ size (intervals (Nat.iter n session r))
                   = (n + size (intervals r))%nat).
  { induction n as [|n (Hl' & Hws' & Hb' & Hsize)]; [done|].
    change (Nat.iter (S n) session r)
      with (session (Nat.iter n session r)).
    destruct (session_step _ Hl' Hws' Hb') as (? & ? & ? & Hi & Hfresh).
    split_and!; try done.
    rewrite Hi, size_union, size_singleton, Hsize by set_solver. lia. }
  apply Hinv.
Qed.

(** X17.  When the socket closes without Stop having been clicked, the
    component stops listening and drops the socket, but the recorder,
    the device stream, the frame loop and the flush interval are as
    they were; and Stop, which is what releases them, now does
    nothing. *)
Theorem remote_close_keeps_microphone (i : nat) (r : Runtime) :
  listening r = true → ws r = Some i →
  let r' := socket_closed i r in
  listening r' = false
  ∧ ws r' = None
  ∧ statusMessage (app (player r')) = lit "Disconnected from server."
  ∧ mediaRecorder r' = mediaRecorder r
  ∧ audioStream r' = audioStream r
  ∧ frames r' = frames r
  ∧ intervals r' = intervals r
  ∧ stopListening r' = r'
  ∧ audioStream (stopListening r') = audioStream r.
Proof.
  intros Hl Hws r'.
  assert (Hl' : listening r' = false).
  { unfold r', socket_closed. by rewrite Hl. }
  assert (Hstop : stopListening r' = r').
  { unfold stopListening. by rewrite Hl'. }
  rewrite Hstop. unfold r', socket_closed. rewrite Hl.
  by split_and!.
Qed.

Lemma close_socket_lookup i l st :
  l !! i = Some st →
  close_socket i l !! i
  = Some (match st with CLOSED => CLOSED | _ => CLOSING end).
Proof.
  intros Hst. unfold close_socket. by rewrite list_lookup_alter_eq, Hst.
Qed.

(** X18.  A [verse_identified] message that changes the sura name or the
    ayah text makes the socket effect run again: the socket the
    message came on is closed and a new one is created.  When the
    close event of the old socket arrives, its handler ends the
    session: the component is not listening, the new socket is closed
    too, and the recorder and the device stream are as they were.  The
    verse of the message is on display. *)
Theorem verse_change_ends_session
        (atob : jsstring → option jsstring) (cl : Closure) (env : Env)
        (sura_name ayah_text : jsstring) (ayah_number : Z)
        (i : nat) (r : Runtime) :
  listening r = true →
  ws r = Some i →
  sockets r !! i = Some OPEN →
  sura_name ≠ currentSura (app (player r))
  ∨ ayah_text ≠ currentAya (app (player r)) →
  let r1 :=
    fst (deliver atob cl env
           (VerseIdentified sura_name ayah_text ayah_number) r) in
  let r2 := socket_closed i r1 in
  sockets r1 !! i = Some CLOSING
  ∧ ws r1 = Some (length (sockets r))
  ∧ sockets r1 !! length (sockets r) = Some CONNECTING
  ∧ listening r2 = false
  ∧ ws r2 = None
  ∧ sockets r2 !! i = Some CLOSED
  ∧ sockets r2 !! length (sockets r) = Some CLOSING
  ∧ mediaRecorder r2 = mediaRecorder r
  ∧ audioStream r2 = audioStream r
  ∧ intervals r2 = intervals r
  ∧ currentVerseWords (app (player r2)) = words ayah_text
  ∧ stopListening r2 = r2.
Proof.
  intros Hl Hws Hopen Hchg r1 r2.
  pose proof (lookup_lt_Some _ _ _ Hopen) as Hlt.
  assert (Hr1 : r1 = socket_effect
                  (set_app (λ _, fst (onmessage atob cl env
                                       (VerseIdentified sura_name ayah_text
                                          ayah_number) (app (player r)))) r)).
  { unfold r1, deliver. simpl. rewrite decide_False; [done|].
    intros [Hs Ha]. destruct Hchg; congruence. }
  assert (Hl1 : listening r1 = true).
  { rewrite Hr1. unfold socket_effect, listening in *. simpl. done. }
  assert (Hs1 : sockets r1 = close_socket i (sockets r) ++ [CONNECTING]).
  { rewrite Hr1. unfold socket_effect. simpl. rewrite Hws.
    unfold listening in *. simpl. by rewrite Hl. }
  assert (Hw1 : ws r1 = Some (length (sockets r))).
  { rewrite Hr1. unfold socket_effect. simpl. rewrite Hws.
    unfold listening in *. simpl. rewrite Hl.
    unfold close_socket. by rewrite length_alter. }
  assert (Hlen : length (close_socket i (sockets r)) = length (sockets r)).
  { unfold close_socket. by rewrite length_alter. }
  assert (Hs2 : sockets r2
                = close_socket (length (sockets r))
                    (alter (λ _, CLOSED) i (sockets r1))).
  { unfold r2, socket_closed. rewrite Hl1. unfold socket_effect. simpl.
    rewrite Hw1. unfold listening. simpl. done. }
  assert (Hl2 : listening r2 = false).
  { unfold r2, socket_closed. by rewrite Hl1. }
  split_and!.
  - rewrite Hs1, lookup_app_l by (rewrite Hlen; done).
    by rewrite (close_socket_lookup _ _ _ Hopen).
  - done.
  - rewrite Hs1. rewrite <- Hlen. by rewrite list_lookup_middle.
  - done.
  - unfold r2, socket_closed. rewrite Hl1. unfold socket_effect. simpl.
    unfold listening. simpl. done.
  - rewrite Hs2. unfold close_socket.
    rewrite list_lookup_alter_ne by lia.
    rewrite list_lookup_alter_eq, Hs1.
    rewrite lookup_app_l by (rewrite Hlen; done).
    by rewrite (close_socket_lookup _ _ _ Hopen).
  - rewrite Hs2. unfold close_socket at 1.
    rewrite list_lookup_alter_eq.
    rewrite list_lookup_alter_ne by lia.
    rewrite Hs1. rewrite <- Hlen at 1. by rewrite list_lookup_middle.
  - unfold r2, socket_closed. rewrite Hl1, Hr1. reflexivity.
  - unfold r2, socket_closed. rewrite Hl1, Hr1. reflexivity.
  - unfold r2, socket_closed. rewrite Hl1, Hr1. reflexivity.
  - unfold r2, socket_closed. rewrite Hl1, Hr1. reflexivity.
  - unfold stopListening. by rewrite Hl2.
Qed.

(** A [diff_update] or a [mistake_event] leaves the socket alone, and
    so does a [verse_identified] that repeats the current verse. *)
Theorem other_messages_keep_socket
        (atob : jsstring → option jsstring) (cl : Closure) (env : Env)
        (msg : Message) (r : Runtime) :
  match msg with
  | VerseIdentified sura_name ayah_text _ =>
      sura_name = currentSura (app (player r))
      ∧ ayah_text = currentAya (app (player r))
  | _ => True
  end →
  let r1 := fst (deliver atob cl env msg r) in
  ws r1 = ws r ∧ sockets r1 = sockets r
  ∧ app (player r1) = fst (onmessage atob cl env msg (app (player r))).
Proof.
  intros Hmsg r1. unfold r1, deliver. simpl.
  rewrite decide_True; [done|].
  destruct msg as [sura_name text number|diff|m|]; simpl; [|done..].
  destruct Hmsg as [-> ->]. done.
Qed.

End CaptureEdges.

(** * Further properties of the audio transport *)

Section TransportFacts.

Import Capture Transport.

(** X19.  While the recorder records and the socket is open, with every
    flush running through, no byte is lost, duplicated or reordered:
    the frames sent so far followed by the chunks still buffered are
    what was there before followed by what the recorder delivered. *)
Theorem stream_conserves_audio (acts : list Activity) (t : Pipeline) :
  recorder t = Some Recording →
  ∃ t', stream acts t = Some t'
        ∧ recorder t' = Some Recording
        ∧ concat (sent t') ++ concat (audioChunks t')
          = concat (sent t) ++ concat (audioChunks t) ++ recorded acts.
Proof.
  revert t. induction acts as [|[chunk|time] acts IH]; intros t Hrec; simpl.
  - exists t. by rewrite app_nil_r.
  - destruct (IH (ondataavailable chunk t) Hrec) as (t' & Hrun & Hrec' & Heq).
    exists t'. split_and!; [done | done |]. rewrite Heq. simpl.
    rewrite concat_app. simpl. by rewrite app_nil_r, <- !app_assoc.
  - unfold flush, flush_begin. rewrite Hrec.
    destruct (audioChunks t) as [|c cs] eqn:Hchunks.
    + destruct (IH t Hrec) as (t' & Hrun & Hrec' & Heq).
      exists t'. split_and!; [done | done |]. by rewrite Heq, Hchunks.
    + simpl.
      match goal with
      | |- ∃ t', stream acts ?t1 = Some t' ∧ _ =>
          destruct (IH t1 Hrec) as (t' & Hrun & Hrec' & Heq)
      end.
      exists t'. split_and!; [done | done |]. rewrite Heq. simpl.
      rewrite concat_app. simpl. by rewrite !app_nil_r, <- !app_assoc.
Qed.


(** X21.  Chunks the recorder delivers while a flush waits for the bytes of
    its blob are never sent: the frame holds the chunks from before
    the wait, and the buffer is emptied after the send. *)
Theorem chunks_during_flush_are_lost
        (time : Z) (late : list (list N)) (t : Pipeline) :
  recorder t = Some Recording →
  audioChunks t ≠ [] →
  ∃ blob t',
    flush_begin (Some OPEN) t = (t, Some blob)
    ∧ flush_resume (Some OPEN) time blob
        (foldl (λ t0 chunk, ondataavailable chunk t0) t late) = Some t'
    ∧ sent t' = sent t ++ [concat (audioChunks t)]
    ∧ audioChunks t' = [].
Proof.
  intros Hrec Hsome. unfold flush_begin. rewrite Hrec.
  destruct (audioChunks t) as [|c cs] eqn:Hchunks; [done|].
  assert (Hsent : ∀ l t0,
            sent (foldl (λ t0 chunk, ondataavailable chunk t0) t0 l)
            = sent t0).
  { induction l as [|x l IH]; intros t0; [done|]. simpl. by rewrite IH. }
  eexists _, _. split; [done|]. unfold flush_resume. simpl.
  split; [done|]. simpl. by rewrite Hsent.
Qed.

Lemma socket_of_stopListening r :
  listening r = true → socket_of (stopListening r) ≠ Some OPEN.
Proof.
  intros Hl. unfold stopListening. rewrite Hl. unfold socket_of. simpl.
  destruct (ws r) as [i|]; [|done].
  unfold close_socket. rewrite list_lookup_alter_eq.
  destruct (sockets r !! i) as [[| | |]|]; done.
Qed.

Lemma onstop_begin_not_open socket t :
  socket ≠ Some OPEN → onstop_begin socket t = (clear_chunks t, None).
Proof.
  intros Hs. unfold onstop_begin.
  destruct (audioChunks t); [done|].
  destruct socket as [[| | |]|]; done.
Qed.

(** X22.  The flush that [onstop] is meant to do when capture stops sends
    nothing after Stop: by the time the recorder's stop event arrives
    the socket of the ref is closing, or the ref is empty, and the
    residual chunks are dropped. *)
Theorem stop_drops_residual_audio (r : Runtime) (t : Pipeline) :
  listening r = true →
  onstop_begin (socket_of (stopListening r)) t = (clear_chunks t, None)
  ∧ onstop_begin (socket_of (socket_effect (stopListening r))) t
    = (clear_chunks t, None)
  ∧ sent (clear_chunks t) = sent t
  ∧ audioChunks (clear_chunks t) = [].
Proof.
  intros Hl. split_and!; try done.
  - by apply onstop_begin_not_open, socket_of_stopListening.
  - apply onstop_begin_not_open. unfold socket_of, socket_effect. simpl.
    unfold stopListening. rewrite Hl. unfold listening. simpl. done.
Qed.

End TransportFacts.

(** * Further properties of the training uploads *)

Section SampleFacts.

Import Capture Training CorrectSample.

(** X23.  When the stop event of the sample recorder arrives, the sample is
    posted and, whatever the answer, the device stream is stopped, the
    recording flag is off, the modal is closed and the chunks are
    gone. *)
Theorem sample_stop_releases_device
        (env : Env) (name_time : Z) (res : FetchOutcome)
        (w : Workflow) (rec : SampleRecorder) :
  correctSampleRecorder w = Some rec →
  sr_stopping rec = true →
  ∃ request w' rec',
    sample_stopped env name_time res w = Some (request, w')
    ∧ q_body request = concat (correctSampleChunks w)
    ∧ correctSampleRecorder w' = Some rec'
    ∧ sr_stream_live rec' = false
    ∧ sr_state rec' = Inactive
    ∧ isRecordingCorrectSample w' = false
    ∧ showCorrectionModal w' = false
    ∧ correctSampleChunks w' = [].
Proof.
  intros Hrec Hstop. unfold sample_stopped. rewrite Hrec, Hstop.
  eexists _, _, _. split; [done|]. simpl. split_and!; try done.
  unfold uploadCorrectSample.
  destruct res as [status body|]; [|done].
  destruct (ok status), body; simpl; try done.
  by destruct (trainingUploads w).
Qed.

Lemma sample_data_run late : ∀ w,
  correctSampleRecorder (foldl (λ w0 chunk, sample_data chunk w0) w late)
  = correctSampleRecorder w
  ∧ correctSampleChunks (foldl (λ w0 chunk, sample_data chunk w0) w late)
    = correctSampleChunks w ++ late
  ∧ trainingUploads (foldl (λ w0 chunk, sample_data chunk w0) w late)
    = trainingUploads w.
Proof.
  induction late as [|chunk late IH]; intros w; simpl.
  - by rewrite app_nil_r.
  - destruct (IH (sample_data chunk w)) as (-> & -> & ->). simpl.
    by rewrite <- app_assoc.
Qed.

(** X24.  Cancel during a recording does not discard the sample: it stops
    the recorder, and the stop event that follows posts what was
    recorded (the chunks delivered until then included), for the
    mistake and the text the recording was started with; on a success
    answer the upload is logged. *)
Theorem cancel_still_uploads
        (env : Env) (name_time : Z) (res : FetchOutcome)
        (late : list (list N)) (w : Workflow) (rec : SampleRecorder) :
  isRecordingCorrectSample w = true →
  correctSampleRecorder w = Some rec →
  sr_state rec = Recording →
  let blob := concat (correctSampleChunks w ++ late) in
  showCorrectionModal (cancel w) = false
  ∧ modalMistakeId (cancel w) = None
  ∧ ∃ request w',
      sample_stopped env name_time res
        (foldl (λ w0 chunk, sample_data chunk w0) (cancel w) late)
      = Some (request, w')
      ∧ request
        = sample_request name_time blob (sr_referenceText rec)
            (sr_mistakeId rec)
      ∧ (∀ status log,
           res = Responded status true → ok status = true →
           trainingUploads w = Stored log →
           trainingUploads w'
           = Stored (sample_record env name_time blob
                       (sr_referenceText rec) (sr_mistakeId rec) :: log)).
Proof.
  intros Hflag Hrec Hstate blob.
  destruct (sample_data_run late (cancel w)) as (Hr & Hc & Hu).
  assert (Hcancel : correctSampleRecorder (cancel w)
                    = Some {| sr_state := Inactive; sr_stream_live := false;
                              sr_mistakeId := sr_mistakeId rec;
                              sr_referenceText := sr_referenceText rec;
                              sr_stopping := true |}
                    ∧ correctSampleChunks (cancel w) = correctSampleChunks w
                    ∧ trainingUploads (cancel w) = trainingUploads w).
  { unfold cancel. rewrite Hflag. simpl. by rewrite Hrec, Hstate. }
  destruct Hcancel as (Hr' & Hc' & Hu').
  split; [unfold cancel; by rewrite Hflag|].
  split; [unfold cancel; by rewrite Hflag|].
  unfold sample_stopped. rewrite Hr, Hr', Hc, Hc', Hu, Hu'. simpl.
  eexists _, _. split; [done|]. split.
  - unfold uploadCorrectSample.
    destruct res as [status body|]; [|done].
    destruct (ok status), body; simpl; try done.
    by destruct (trainingUploads w).
  - intros status log -> Hok Hlog. simpl.
    unfold uploadCorrectSample. by rewrite Hok, Hlog.
Qed.

(** X25.  An upload of a correct sample that is not answered with a success
    leaves the upload log as it is and reports the failure; the log
    changes only after a success answer, and then the new record, with
    the linked mistake id and the reference text, is in front. *)
Theorem sample_upload_outcomes
        (env : Env) (name_time : Z) (res : FetchOutcome) (blob : list N)
        (text : jsstring) (originalMistakeId : option jsstring)
        (s : AppState) (store : StoredUploads) :
  let out :=
    uploadCorrectSample env name_time res blob text originalMistakeId
      s store in
  (upload_rejected res →
   out.2 = store ∧ statusMessage out.1.2 = sample_failed_message)
  ∧ (out.2 ≠ store →
     ∃ status body, res = Responded status body ∧ ok status = true)
  ∧ (∀ status log,
       res = Responded status true → ok status = true →
       store = Stored log →
       ∃ record,
         out.2 = Stored (record :: log)
         ∧ r_originalMistakeId record = originalMistakeId
         ∧ r_text record = Some text
         ∧ r_fileName record = q_filename out.1.1
         ∧ r_fileSize record = Z.of_nat (length blob))
  ∧ q_body out.1.1 = blob.
Proof.
  intros out. unfold out, uploadCorrectSample. split_and!.
  - destruct res as [status body|]; simpl; [|done]. by intros ->.
  - destruct res as [status body|]; simpl; [|done].
    destruct (ok status) eqn:Hok; simpl; [|done].
    intros _. by exists status, body.
  - intros status log -> Hok ->. rewrite Hok. simpl.
    by eexists.
  - destruct res as [status body|]; [|done].
    destruct (ok status), body; simpl; try done.
    by destruct store.
Qed.


End SampleFacts.

(** * The user id *)

Section IdentityFacts.

Import Identity.

(** X27.  The user id is drawn once: when the store holds a non-empty id it
    is the one used, and after the effect has run, with a non-empty
    drawn id, running it again gives the same id and the same store
    whatever would be drawn then. *)
Theorem user_id_stable (uuid uuid' : jsstring) (stored : option jsstring) :
  uuid ≠ [] →
  let first := restore_userId uuid stored in
  restore_userId uuid' first.2 = first
  ∧ first.2 = Some first.1
  ∧ first.1 ≠ []
  ∧ (∀ uid, stored = Some uid → uid ≠ [] → first = (uid, stored)).
Proof.
  intros Hne first. unfold first, restore_userId.
  destruct stored as [[|c uid]|]; simpl.
  - destruct uuid; [done|]. split_and!; try done.
    by intros ? [= <-] ?.
  - split_and!; try done. by intros ? [= <-].
  - destruct uuid; [done|]. by split_and!.
Qed.

End IdentityFacts.

(** * The service worker *)

Section ServiceWorkerFacts.

Import ServiceWorker.

Lemma addAll_Some net urls : ∀ c c',
  addAll net urls c = Some c' →
  (∀ url, url ∈ urls →
          ∃ response, c' !! url = Some response
                      ∧ net (GET url) = Some response
                      ∧ ok (rs_status response) = true)
  ∧ (∀ url, url ∉ urls → c' !! url = c !! url).
Proof.
  induction urls as [|u urls IH]; intros c c'; simpl.
  - intros [= <-]. split; [|done]. intros url Hin.
    by apply elem_of_nil in Hin.
  - destruct (net (GET u)) as [response|] eqn:Hnet; [|done].
    destruct (ok (rs_status response)) eqn:Hok; [|done].
    destruct (addAll net urls c) as [c1|] eqn:Hrest; [|done].
    intros [= <-]. destruct (IH c c1 Hrest) as [Hin Hout]. split.
    + intros url Hurl. destruct (decide (url = u)) as [->|Hne].
      * exists response. by rewrite lookup_insert_eq.
      * apply elem_of_cons in Hurl as [?|Hurl]; [done|].
        rewrite lookup_insert_ne by done. by apply Hin.
    + intros url Hurl. apply not_elem_of_cons in Hurl as [Hne Hurl].
      rewrite lookup_insert_ne by done. by apply Hout.
Qed.

Lemma addAll_None net urls c url :
  url ∈ urls →
  match net (GET url) with
  | Some response => ok (rs_status response) = false
  | None => True
  end →
  addAll net urls c = None.
Proof.
  induction urls as [|u urls IH]; intros Hin Hbad.
  - by apply elem_of_nil in Hin.
  - simpl. apply elem_of_cons in Hin as [->|Hin].
    + destruct (net (GET u)) as [response|]; [|done]. by rewrite Hbad.
    + destruct (net (GET u)) as [response|]; [|done].
      destruct (ok (rs_status response)); [|done].
      by rewrite IH.
Qed.

(** X28.  After a successful install every precached URL is answered from
    the cache, with the response fetched at install time and without
    going to the network, whatever the network is then; anything the
    install did not touch is looked up as before. *)
Theorem precached_served_offline
        (net net' : Request → option Response)
        (c c' : gmap jsstring Response) (url : jsstring) :
  oninstall net c = Some c' →
  url ∈ urlsToCache →
  ∃ response,
    onfetch net' c' (GET url) = (Some response, false)
    ∧ net (GET url) = Some response
    ∧ ok (rs_status response) = true.
Proof.
  intros Hinstall Hurl.
  destruct (addAll_Some _ _ _ _ Hinstall) as [Hin _].
  destruct (Hin url Hurl) as (response & Hc & Hnet & Hok).
  exists response. split; [|done].
  unfold onfetch, cache_match.
  rewrite decide_True by done.
  change (rq_url (GET url)) with url. by rewrite Hc.
Qed.

(** X29.  The install caches all or nothing: if one of the precache URLs
    cannot be fetched, or is answered with a status that is not ok,
    the install fails and the cache is not changed. *)
Theorem install_all_or_nothing
        (net : Request → option Response) (c : gmap jsstring Response)
        (url : jsstring) :
  url ∈ urlsToCache →
  match net (GET url) with
  | Some response => ok (rs_status response) = false
  | None => True
  end →
  oninstall net c = None.
Proof. intros Hurl Hbad. by eapply addAll_None. Qed.

(** The fetch listener never answers a request that is not a GET, or
    whose URL is not cached, from the cache: it passes on what the
    network gives, a failure included. *)
Theorem uncached_goes_to_network
        (net : Request → option Response) (c : gmap jsstring Response)
        (request : Request) :
  rq_method request ≠ lit "GET" ∨ c !! rq_url request = None →
  onfetch net c request = (net request, true).
Proof.
  intros Hmiss. unfold onfetch, cache_match.
  destruct (decide (rq_method request = lit "GET")) as [Hget|Hother].
  - destruct Hmiss as [?|Hnone]; [done|]. by rewrite Hnone.
  - done.
Qed.

End ServiceWorkerFacts.

(** * The further properties on concrete inputs *)

Section Cases.

Import Session Queue Training Playback PlaybackRuns Capture Transport
       Monitor Channel CorrectSample Identity ServiceWorker Scenario Cases.

Lemma sync_success_settles_queue_witness :
  ok 200 = true
  ∧ syncMistakes_request
      (mistakeQueue
         (snd (syncMistakes (Responded 200 true) (λ x, x) queue_AB)))
    = None.
Proof.
  split; [reflexivity|].
  exact (proj1 (proj2 (sync_success_settles_queue 200 true queue_AB eq_refl))).
Defined.

Lemma verification_is_redelivered_witness :
  recA ∈ mistakeQueue queue_AB
  ∧ ∃ payload,
      fst (syncMistakes (Responded 200 true) (λ x, x)
             (run atob_id
                [(closure_spoken, env_c, MistakeEvent mistake_msg)]
                (handleMistakeVerification (id recA) Correct queue_AB)))
      = Some payload
      ∧ strip_synced (with_verification Correct recA) ∈ mistakes payload.
Proof.
  assert (Hin : recA ∈ mistakeQueue queue_AB) by apply list_elem_of_here.
  split; [exact Hin|].
  destruct (verification_is_redelivered atob_id
              [(closure_spoken, env_c, MistakeEvent mistake_msg)]
              (id recA) Correct queue_AB recA (Responded 200 true) (λ x, x)
              Hin eq_refl) as (payload & Hreq & Hmem & _).
  exists payload. split; [exact Hreq | exact Hmem].
Defined.

Lemma sync_changes_flags_only_witness :
  unsynced_of (mistakeQueue queue_AB) ≠ []
  ∧ strip_synced
      <$> mistakeQueue
            (snd (syncMistakes (Responded 200 true) (λ x, x) queue_AB))
    = strip_synced <$> mistakeQueue queue_AB.
Proof.
  assert (Hsome : unsynced_of (mistakeQueue queue_AB) ≠ [])
    by (vm_compute; discriminate).
  split; [exact Hsome|].
  exact (proj1 (sync_changes_flags_only (Responded 200 true) (λ x, x)
                  queue_AB Hsome)).
Defined.

Lemma mistake_in_flight_stays_unsynced_witness :
  ok 200 = true
  ∧ unsynced_of (mistakeQueue queue_AB) ≠ []
  ∧ (randomUUID env_c ∉ (id <$> unsynced_of (mistakeQueue queue_AB)))
  ∧ mistakeQueue
      (snd (syncMistakes (Responded 200 true)
              (λ x, fst (onmessage atob_id closure_spoken env_c
                           (MistakeEvent mistake_msg) x))
              queue_AB))
      !! 0%nat
    = Some (newMistake closure_spoken env_c mistake_msg).
Proof.
  assert (Hsome : unsynced_of (mistakeQueue queue_AB) ≠ [])
    by (vm_compute; discriminate).
  assert (Hfresh : randomUUID env_c
                   ∉ (id <$> unsynced_of (mistakeQueue queue_AB))).
  { apply (bool_decide_unpack _). vm_compute. exact I. }
  split_and!; [reflexivity | exact Hsome | exact Hfresh |].
  exact (proj1 (mistake_in_flight_stays_unsynced atob_id closure_spoken
                  env_c mistake_msg 200 true queue_AB eq_refl Hsome Hfresh)).
Defined.

Lemma verification_unknown_id_witness :
  (lit "zz" ∉ (id <$> mistakeQueue queue_AB))
  ∧ mistakeQueue (handleMistakeVerification (lit "zz") Correct queue_AB)
    = mistakeQueue queue_AB.
Proof.
  assert (Hout : lit "zz" ∉ (id <$> mistakeQueue queue_AB)).
  { apply (bool_decide_unpack _). vm_compute. exact I. }
  split; [exact Hout|].
  exact (verification_unknown_id (lit "zz") Correct queue_AB Hout).
Defined.

Lemma words_nil_iff_witness :
  Forall (λ c, is_ws c = true) [32; 9; 160] ∧ words [32; 9; 160] = [].
Proof.
  assert (Hws : Forall (λ c, is_ws c = true) [32; 9; 160])
    by (repeat constructor).
  split; [exact Hws|].
  exact (proj2 (words_nil_iff [32; 9; 160]) Hws).
Defined.

Lemma words_of_separated_witness :
  is_ws 32 = true ∧ is_ws 10 = true
  ∧ words (10 :: concat ((λ w, w ++ [32])
                           <$> [[1576; 1587; 1605]; [1575; 1604; 1604; 1607]]))
    = [[1576; 1587; 1605]; [1575; 1604; 1604; 1607]].
Proof.
  split_and!; [reflexivity | reflexivity |].
  refine (proj2 (words_of_separated
                   [[1576; 1587; 1605]; [1575; 1604; 1604; 1607]] 32 10
                   eq_refl eq_refl _)).
  repeat constructor; discriminate.
Defined.

Lemma serial_playback_one_source_witness :
  tracked idle_player
  ∧ awaiting idle_player = 0%nat
  ∧ all_orderly
      [Call; Decoded true; Call; Ended 0; Decoded true; Ended 1;
       Call; Decoded false; Call; Decoded true]
      idle_player
  ∧ ∃ p', exec [Call; Decoded true; Call; Ended 0; Decoded true; Ended 1;
                Call; Decoded false; Call; Decoded true] idle_player
          = Some p'
          ∧ at_most_one_source p'.
Proof.
  assert (Hidle : tracked idle_player) by reflexivity.
  assert (Horder : all_orderly
                     [Call; Decoded true; Call; Ended 0; Decoded true;
                      Ended 1; Call; Decoded false; Call; Decoded true]
                     idle_player).
  { simpl. split_and!; try exact I; try reflexivity;
      [left | right]; reflexivity. }
  destruct (serial_playback_one_source
              [Call; Decoded true; Call; Ended 0; Decoded true; Ended 1;
               Call; Decoded false; Call; Decoded true]
              idle_player Hidle eq_refl Horder 10)
    as (p' & Hrun & _ & Hone).
  split_and!; [exact Hidle | reflexivity | exact Horder |].
  exists p'. split; [exact Hrun | exact Hone].
Defined.


Lemma voice_activity_never_interrupts_witness :
  listening idle_runtime = false
  ∧ isSpokenCorrectionPlaying (app (player idle_runtime)) = false
  ∧ ∃ r2, frames_run false [loud_frame; loud_frame] playing_session = Some r2
          ∧ player r2 = player playing_session.
Proof.
  split_and!; [reflexivity | reflexivity |].
  destruct (voice_activity_never_interrupts idle_runtime
              [loud_frame; loud_frame] eq_refl eq_refl)
    as (r2 & Hrun & Hplayer & _).
  exists r2. split; [exact Hrun | exact Hplayer].
Defined.

Lemma voice_activity_threshold_witness :
  1%nat ∈ frames playing_session
  ∧ spokenCorrectionSource (player playing_session) = Some 0%nat
  ∧ 10 * bufferLength < total loud_frame
  ∧ total quiet_frame ≤ 10 * bufferLength
  ∧ (∃ r', checkSilence true 1 loud_frame playing_session = Some r'
           ∧ spokenCorrectionSource (player r') = None)
  ∧ (∃ r', checkSilence true 1 quiet_frame playing_session = Some r'
           ∧ player r' = player playing_session).
Proof.
  assert (Hh : 1%nat ∈ frames playing_session).
  { apply (bool_decide_unpack _). vm_compute. exact I. }
  assert (Hloud : 10 * bufferLength < total loud_frame) by reflexivity.
  assert (Hquiet : total quiet_frame ≤ 10 * bufferLength)
    by (vm_compute; discriminate).
  split_and!; [exact Hh | reflexivity | exact Hloud | exact Hquiet | |].
  - destruct (voice_activity_threshold 1 loud_frame playing_session 0
                Hh eq_refl) as (r' & Hrun & Hstop & _).
    exists r'. split; [exact Hrun | exact (proj1 (Hstop Hloud))].
  - destruct (voice_activity_threshold 1 quiet_frame playing_session 0
                Hh eq_refl) as (r' & Hrun & _ & Hkeep).
    exists r'. split; [exact Hrun | exact (Hkeep Hquiet)].
Defined.

Lemma handles_bounded_idle : handles_bounded idle_runtime.
Proof.
  split; intros h Hh; exfalso; exact (not_elem_of_empty (C:=gset nat) h Hh).
Defined.

Lemma stop_cancels_frame_loop_witness :
  handles_bounded idle_runtime
  ∧ listening idle_runtime = false
  ∧ ∃ r2, frames_run false [quiet_frame; loud_frame]
            (onClick true idle_runtime) = Some r2
          ∧ frames (stopListening r2) = frames idle_runtime.
Proof.
  split_and!; [exact handles_bounded_idle | reflexivity |].
  destruct (stop_cancels_frame_loop false [quiet_frame; loud_frame]
              idle_runtime handles_bounded_idle eq_refl)
    as (r2 & Hrun & Hframes & _).
  exists r2. split; [exact Hrun | exact Hframes].
Defined.

Lemma start_stop_guards_witness :
  listening live_session = true
  ∧ startListening true live_session = (live_session, None)
  ∧ listening idle_runtime = false
  ∧ stopListening idle_runtime = idle_runtime.
Proof.
  destruct (start_stop_guards true live_session) as (_ & _ & Hstart).
  destruct (start_stop_guards true idle_runtime) as (_ & Hstop & _).
  split_and!; [reflexivity | exact (Hstart eq_refl) | reflexivity
               | exact (Hstop eq_refl)].
Defined.

Lemma sessions_leak_intervals_witness :
  listening idle_runtime = false
  ∧ ws idle_runtime = None
  ∧ handles_bounded idle_runtime
  ∧ size (intervals (Nat.iter 3 session idle_runtime)) = 3%nat.
Proof.
  split_and!; [reflexivity | reflexivity | exact handles_bounded_idle |].
  exact (sessions_leak_intervals 3 idle_runtime eq_refl eq_refl
           handles_bounded_idle).
Defined.

Lemma remote_close_keeps_microphone_witness :
  listening live_session = true
  ∧ ws live_session = Some 0%nat
  ∧ listening (socket_closed 0 live_session) = false
  ∧ audioStream (socket_closed 0 live_session) = Some true
  ∧ audioStream (stopListening (socket_closed 0 live_session)) = Some true.
Proof.
  destruct (remote_close_keeps_microphone 0 live_session eq_refl eq_refl)
    as (Hl & _ & _ & _ & Hstream & _ & _ & _ & Hafter).
  split_and!; [reflexivity | reflexivity | exact Hl | exact Hstream
               | exact Hafter].
Defined.

Lemma verse_change_ends_session_witness :
  listening live_session = true
  ∧ ws live_session = Some 0%nat
  ∧ sockets live_session !! 0%nat = Some OPEN
  ∧ lit "Al-Fatiha" ≠ currentSura (app (player live_session))
  ∧ listening
      (socket_closed 0
         (fst (deliver atob_id closure_spoken env_c
                 (VerseIdentified (lit "Al-Fatiha") bismi_allah 1)
                 live_session))) = false
  ∧ audioStream
      (socket_closed 0
         (fst (deliver atob_id closure_spoken env_c
                 (VerseIdentified (lit "Al-Fatiha") bismi_allah 1)
                 live_session))) = audioStream live_session.
Proof.
  assert (Hne : lit "Al-Fatiha" ≠ currentSura (app (player live_session)))
    by (vm_compute; discriminate).
  destruct (verse_change_ends_session atob_id closure_spoken env_c
              (lit "Al-Fatiha") bismi_allah 1 0 live_session
              eq_refl eq_refl eq_refl (or_introl Hne))
    as (_ & _ & _ & Hl & _ & _ & _ & _ & Hstream & _).
  split_and!; [reflexivity | reflexivity | reflexivity | exact Hne
               | exact Hl | exact Hstream].
Defined.

Lemma stream_conserves_audio_witness :
  recorder buffered = Some Recording
  ∧ ∃ t', stream [Data [4]; Tick 5; Data [6]; Tick 7; Data [8]] buffered
          = Some t'
          ∧ concat (sent t') ++ concat (audioChunks t')
            = [9; 1; 2; 3; 4; 6; 8].
Proof.
  split; [reflexivity|].
  destruct (stream_conserves_audio
              [Data [4]; Tick 5; Data [6]; Tick 7; Data [8]] buffered eq_refl)
    as (t' & Hrun & _ & Heq).
  exists t'. split; [exact Hrun | exact Heq].
Defined.


Lemma chunks_during_flush_are_lost_witness :
  recorder buffered = Some Recording
  ∧ audioChunks buffered ≠ []
  ∧ ∃ blob t',
      flush_begin (Some OPEN) buffered = (buffered, Some blob)
      ∧ flush_resume (Some OPEN) 5 blob (ondataavailable [4] buffered)
        = Some t'
      ∧ sent t' = [[9]; [1; 2; 3]]
      ∧ audioChunks t' = [].
Proof.
  assert (Hsome : audioChunks buffered ≠ []) by (vm_compute; discriminate).
  split_and!; [reflexivity | exact Hsome |].
  destruct (chunks_during_flush_are_lost 5 [[4]] buffered eq_refl Hsome)
    as (blob & t' & Hbegin & Hresume & Hsent & Hchunks).
  exists blob, t'.
  split_and!; [exact Hbegin | exact Hresume | exact Hsent | exact Hchunks].
Defined.

Lemma stop_drops_residual_audio_witness :
  listening live_session = true
  ∧ onstop_begin (socket_of (stopListening live_session)) buffered
    = (clear_chunks buffered, None).
Proof.
  split; [reflexivity|].
  exact (proj1 (stop_drops_residual_audio live_session buffered eq_refl)).
Defined.

Lemma sample_stop_releases_device_witness :
  ∃ request w' rec',
    sample_stopped env_c 1200 Rejected
      (stopRecordingCorrectSample recording_sample) = Some (request, w')
    ∧ correctSampleRecorder w' = Some rec'
    ∧ sr_stream_live rec' = false
    ∧ showCorrectionModal w' = false.
Proof.
  destruct (sample_stop_releases_device env_c 1200 Rejected
              (stopRecordingCorrectSample recording_sample)
              {| sr_state := Inactive; sr_stream_live := false;
                 sr_mistakeId := Some (id recA);
                 sr_referenceText := reference_segment recA;
                 sr_stopping := true |} eq_refl eq_refl)
    as (request & w' & rec' & Hrun & _ & Hrec & Hlive & _ & _ & Hmodal & _).
  exists request, w', rec'.
  split_and!; [exact Hrun | exact Hrec | exact Hlive | exact Hmodal].
Defined.

Lemma cancel_still_uploads_witness :
  isRecordingCorrectSample recording_sample = true
  ∧ correctSampleRecorder recording_sample = Some sample_recorder
  ∧ ∃ request w',
      sample_stopped env_c 1200 (Responded 200 true)
        (sample_data [9] (cancel recording_sample)) = Some (request, w')
      ∧ q_body request = [7; 8; 9]
      ∧ q_original_mistake_id request = lit "a".
Proof.
  split_and!; [reflexivity | reflexivity |].
  destruct (cancel_still_uploads env_c 1200 (Responded 200 true) [[9]]
              recording_sample sample_recorder eq_refl eq_refl eq_refl)
    as (_ & _ & request & w' & Hrun & Hreq & _).
  exists request, w'. split; [exact Hrun|].
  rewrite Hreq. split; reflexivity.
Defined.

Lemma sample_upload_outcomes_witness :
  upload_rejected (Responded 503 true)
  ∧ (uploadCorrectSample env_c 1200 (Responded 503 true) [7; 8]
       (lit "bism") (Some (lit "a")) initial (Stored [])).2 = Stored [].
Proof.
  assert (Hrej : upload_rejected (Responded 503 true)) by reflexivity.
  split; [exact Hrej|].
  exact (proj1 (proj1 (sample_upload_outcomes env_c 1200 (Responded 503 true)
                         [7; 8] (lit "bism") (Some (lit "a")) initial
                         (Stored [])) Hrej)).
Defined.


Lemma user_id_stable_witness :
  lit "u1" ≠ []
  ∧ restore_userId (lit "u1") None = (lit "u1", Some (lit "u1"))
  ∧ restore_userId (lit "u2") (restore_userId (lit "u1") None).2
    = restore_userId (lit "u1") None.
Proof.
  assert (Hne : lit "u1" ≠ []) by (vm_compute; discriminate).
  split_and!; [exact Hne | reflexivity |].
  exact (proj1 (user_id_stable (lit "u1") (lit "u2") None Hne)).
Defined.

Lemma install_ok :
  oninstall net_ok ∅ = Some (default ∅ (oninstall net_ok ∅)).
Proof. vm_compute. reflexivity. Defined.

Lemma precached_served_offline_witness :
  lit "/manifest.json" ∈ urlsToCache
  ∧ ∃ c' response,
      oninstall net_ok ∅ = Some c'
      ∧ onfetch net_down c' (GET (lit "/manifest.json"))
        = (Some response, false).
Proof.
  assert (Hurl : lit "/manifest.json" ∈ urlsToCache).
  { apply (bool_decide_unpack _). vm_compute. exact I. }
  split; [exact Hurl|].
  destruct (precached_served_offline net_ok net_down ∅ _
              (lit "/manifest.json") install_ok Hurl)
    as (response & Hfetch & _).
  exists (default ∅ (oninstall net_ok ∅)), response.
  split; [exact install_ok | exact Hfetch].
Defined.

Lemma install_all_or_nothing_witness :
  lit "/" ∈ urlsToCache
  ∧ net_down (GET (lit "/")) = None
  ∧ oninstall net_down ∅ = None.
Proof.
  assert (Hurl : lit "/" ∈ urlsToCache).
  { apply (bool_decide_unpack _). vm_compute. exact I. }
  split_and!; [exact Hurl | reflexivity |].
  exact (install_all_or_nothing net_down ∅ (lit "/") Hurl I).
Defined.

End Cases.
